(** * Sparse N-dimensional matrix (sparse_matrix.hpp): model and properties

    The development follows the header top-down:
    - [Tuple]: the index tuples [std::tuple<size_t, ...>] with the
      comparisons the container relies on;
    - [StdMap]: the ordered container [std::map<index_t, value_type_t>],
      kept as its in-order sequence of nodes, with iterators as positions;
    - [SparseMatrix]: the class template itself: the index proxies
      [index_matrix<num, ...>], the terminal proxy's assignment and
      conversion, the two iterator classes, and the special member
      functions acting on objects that live at addresses;
    - [Demo]: the instance [sparse_matrix<int>] and the loops of main.cpp. *)

From Stdlib Require Import List NArith ZArith Bool Lia Eqdep_dec Permutation Sorted.
Import ListNotations.

(** [size_t]: indices are never computed with inside the header, only
    stored and compared, so the unsigned machine word is kept as a natural
    number of [N]. *)
Definition size_t : Type := N.
Bind Scope N_scope with size_t.

(** ** Index tuples *)
Module Tuple.

(** [std::tuple<size_t, ..., size_t>]: the components in order. *)
Definition t : Type := list size_t.

(** [operator<] of [std::tuple]: the first components decide, and only
    when neither is below the other do the remaining ones. *)
Fixpoint lt (a b : t) : bool :=
  match a, b with
  | x :: a', y :: b' =>
      if N.ltb x y then true
      else if N.ltb y x then false
      else lt a' b'
  | [], _ :: _ => true
  | _, [] => false
  end.

(** [operator==] of [std::tuple]: component-wise. *)
Fixpoint eqb (a b : t) : bool :=
  match a, b with
  | [], [] => true
  | x :: a', y :: b' => N.eqb x y && eqb a' b'
  | _, _ => false
  end.

(** Equivalence of keys under the comparator of [std::map]. *)
Definition equiv (a b : t) : bool := negb (lt a b) && negb (lt b a).

(** [std::tuple_cat(a, std::tie(i))]. *)
Definition snoc (a : t) (i : size_t) : t := a ++ [i].

Lemma lt_irrefl a : lt a a = false.
Proof.
  induction a as [|x a IH]; simpl; [reflexivity|].
  rewrite N.ltb_irrefl. exact IH.
Qed.

Lemma lt_trans a b c : lt a b = true -> lt b c = true -> lt a c = true.
Proof.
  revert b c. induction a as [|x a IH]; intros [|y b] [|z c]; simpl;
    try discriminate; try reflexivity.
  destruct (N.ltb_spec x y), (N.ltb_spec y x), (N.ltb_spec y z),
    (N.ltb_spec z y), (N.ltb_spec x z), (N.ltb_spec z x);
    try discriminate; try reflexivity; try lia.
  apply IH.
Qed.

Lemma lt_total a b : lt a b = false -> lt b a = false -> a = b.
Proof.
  revert b. induction a as [|x a IH]; intros [|y b]; simpl;
    try discriminate; try reflexivity.
  destruct (N.ltb_spec x y), (N.ltb_spec y x); try discriminate.
  intros H1 H2. f_equal; [lia | apply IH; assumption].
Qed.

Lemma equiv_eq a b : equiv a b = true <-> a = b.
Proof.
  unfold equiv. split.
  - intros H. apply andb_true_iff in H as [H1 H2].
    apply negb_true_iff in H1, H2. apply lt_total; assumption.
  - intros ->. rewrite lt_irrefl. reflexivity.
Qed.

Lemma equiv_refl a : equiv a a = true.
Proof. apply equiv_eq. reflexivity. Qed.

Lemma equiv_neq a b : a <> b -> equiv a b = false.
Proof.
  intros H. destruct (equiv a b) eqn:E; [|reflexivity].
  apply equiv_eq in E. contradiction.
Qed.

Lemma lt_not_equiv a b : lt a b = true -> equiv a b = false.
Proof. unfold equiv. intros ->. reflexivity. Qed.

Lemma lt_not_equiv' a b : lt a b = true -> equiv b a = false.
Proof. unfold equiv. intros ->. apply andb_false_r. Qed.

Lemma lt_neq a b : lt a b = true -> a <> b.
Proof. intros H ->. rewrite lt_irrefl in H. discriminate. Qed.

Lemma eqb_eq a b : eqb a b = true <-> a = b.
Proof.
  revert b. induction a as [|x a IH]; intros [|y b]; simpl;
    try (split; [discriminate | congruence]); [tauto|].
  rewrite andb_true_iff, N.eqb_eq, IH. split.
  - intros [-> ->]. reflexivity.
  - intros H. injection H as -> ->. split; reflexivity.
Qed.

Definition eq_dec (a b : t) : {a = b} + {a <> b} :=
  list_eq_dec N.eq_dec a b.

End Tuple.

(** ** The ordered container *)
Module StdMap.
Section WithMapped.

(** The mapped type and its [operator==]. *)
Variable V : Type.
Variable V_eq_dec : forall x y : V, {x = y} + {x <> y}.

(** A node is the pair [(first, second)] that an iterator points to. *)
Local Abbreviation node := (Tuple.t * V)%type.

Definition head_above (k : Tuple.t) (l : list node) : bool :=
  match l with
  | [] => true
  | (k', _) :: _ => Tuple.lt k k'
  end.

(** The in-order sequence of a [std::map] has strictly ascending keys. *)
Fixpoint ordered (l : list node) : bool :=
  match l with
  | [] => true
  | (k, _) :: l' => head_above k l' && ordered l'
  end.

(** The container: its nodes in iteration order. *)
Record t : Type := Map { nodes : list node; nodes_ordered : ordered nodes = true }.

(** An iterator is a position in the in-order sequence; [cend] is the
    position one past the last node. *)
Definition iterator : Type := nat.

(** *** Operations on the node sequence *)

(** [find]: the position of the node whose key is equivalent to [k],
    the past-the-end position when there is none. *)
Fixpoint find_in (k : Tuple.t) (l : list node) : iterator :=
  match l with
  | [] => 0
  | (k', _) :: l' => if Tuple.equiv k' k then 0 else S (find_in k l')
  end.

(** [m[k] = v]: [operator[]] finds the node of [k], or links a new one in
    key order, and the assignment stores [v] in it. *)
Fixpoint put_in (k : Tuple.t) (v : V) (l : list node) : list node :=
  match l with
  | [] => [(k, v)]
  | (k', v') :: l' =>
      if Tuple.lt k k' then (k, v) :: (k', v') :: l'
      else if Tuple.lt k' k then (k', v') :: put_in k v l'
      else (k', v) :: l'
  end.

(** [erase(it)]: unlinks the node at position [it]. *)
Fixpoint erase_in (it : iterator) (l : list node) : list node :=
  match l with
  | [] => []
  | n :: l' =>
      match it with
      | 0 => l'
      | S it' => n :: erase_in it' l'
      end
  end.

(** [it->second = v]: a store through the reference to the mapped value
    of the node at position [it]; the key is not touched. *)
Fixpoint store_in (it : iterator) (v : V) (l : list node) : list node :=
  match l with
  | [] => []
  | (k, v') :: l' =>
      match it with
      | 0 => (k, v) :: l'
      | S it' => (k, v') :: store_in it' v l'
      end
  end.

(** [operator==] of two containers: same length and pairwise equal
    nodes ([std::equal] over the two ranges). *)
Fixpoint equal_in (l1 l2 : list node) : bool :=
  match l1, l2 with
  | [], [] => true
  | (k1, v1) :: l1', (k2, v2) :: l2' =>
      Tuple.eqb k1 k2 && (if V_eq_dec v1 v2 then true else false)
      && equal_in l1' l2'
  | _, _ => false
  end.

(** *** The order invariant is kept *)

Lemma ordered_tail n l : ordered (n :: l) = true -> ordered l = true.
Proof. destruct n as [k v]. simpl. intros H. apply andb_true_iff in H. tauto. Qed.

Lemma ordered_head k v l : ordered ((k, v) :: l) = true -> head_above k l = true.
Proof. simpl. intros H. apply andb_true_iff in H. tauto. Qed.

Lemma ordered_cons k v l :
  head_above k l = true -> ordered l = true -> ordered ((k, v) :: l) = true.
Proof. simpl. intros -> ->. reflexivity. Qed.

(** In an ordered sequence every later key is above the first one. *)
Lemma ordered_above k v l :
  ordered ((k, v) :: l) = true ->
  forall k' v', In (k', v') l -> Tuple.lt k k' = true.
Proof.
  revert k v. induction l as [|[k1 v1] l IH]; intros k v H k' v' Hin.
  - destruct Hin.
  - pose proof (ordered_head _ _ _ H) as Hh. simpl in Hh.
    destruct Hin as [Heq | Hin].
    + injection Heq as <- <-. exact Hh.
    + apply Tuple.lt_trans with k1; [exact Hh|].
      apply (IH k1 v1 (ordered_tail _ _ H) k' v' Hin).
Qed.

Lemma above_head k l :
  (forall k' v', In (k', v') l -> Tuple.lt k k' = true) -> head_above k l = true.
Proof.
  destruct l as [|[k1 v1] l]; simpl; [reflexivity|].
  intros H. apply (H k1 v1). left. reflexivity.
Qed.

Lemma ordered_not_in k v l :
  ordered ((k, v) :: l) = true -> forall v', ~ In (k, v') l.
Proof.
  intros H v' Hin. pose proof (ordered_above _ _ _ H _ _ Hin) as Hlt.
  rewrite Tuple.lt_irrefl in Hlt. discriminate.
Qed.

Lemma put_in_In k v l k' v' :
  In (k', v') (put_in k v l) -> (k' = k /\ v' = v) \/ In (k', v') l.
Proof.
  induction l as [|[k1 v1] l IH]; simpl.
  - intros [H|[]]. injection H as <- <-. left. split; reflexivity.
  - destruct (Tuple.lt k k1) eqn:E1; [|destruct (Tuple.lt k1 k) eqn:E2].
    + intros [H|H]; [injection H as <- <-; left; split; reflexivity | right; exact H].
    + intros [H|H]; [right; left; exact H | ].
      destruct (IH H) as [?|?]; [left; assumption | right; right; assumption].
    + intros [H|H]; [|right; right; exact H].
      injection H as <- <-. left. split; [|reflexivity].
      apply Tuple.lt_total; assumption.
Qed.

Lemma ordered_put_in k v l : ordered l = true -> ordered (put_in k v l) = true.
Proof.
  induction l as [|[k1 v1] l IH]; intros H; cbn [put_in]; [reflexivity|].
  destruct (Tuple.lt k k1) eqn:E1; [|destruct (Tuple.lt k1 k) eqn:E2].
  - apply ordered_cons; [exact E1 | exact H].
  - apply ordered_cons; [|apply IH; exact (ordered_tail _ _ H)].
    apply above_head. intros k' v' Hin.
    destruct (put_in_In _ _ _ _ _ Hin) as [[-> _]|Hin']; [exact E2|].
    exact (ordered_above _ _ _ H _ _ Hin').
  - exact H.
Qed.

Lemma erase_in_In it l n : In n (erase_in it l) -> In n l.
Proof.
  revert it. induction l as [|n1 l IH]; intros [|it]; simpl; try tauto.
  intros [H|H]; [left; exact H | right; exact (IH _ H)].
Qed.

Lemma ordered_erase_in it l : ordered l = true -> ordered (erase_in it l) = true.
Proof.
  revert it. induction l as [|[k1 v1] l IH]; intros [|it] H; cbn [erase_in];
    try reflexivity.
  - exact (ordered_tail _ _ H).
  - apply ordered_cons; [|apply IH; exact (ordered_tail _ _ H)].
    apply above_head. intros k' v' Hin.
    exact (ordered_above _ _ _ H _ _ (erase_in_In _ _ _ Hin)).
Qed.

Lemma head_above_store_in k it v l :
  head_above k (store_in it v l) = head_above k l.
Proof. destruct l as [|[k1 v1] l], it; reflexivity. Qed.

Lemma ordered_store_in it v l : ordered l = true -> ordered (store_in it v l) = true.
Proof.
  revert it. induction l as [|[k1 v1] l IH]; intros [|it] H; cbn [store_in];
    try reflexivity.
  - exact H.
  - apply ordered_cons; [|apply IH; exact (ordered_tail _ _ H)].
    rewrite head_above_store_in. exact (ordered_head _ _ _ H).
Qed.

(** *** The container's interface *)

Definition empty : t := Map [] eq_refl.

Definition size (m : t) : nat := length (nodes m).

Definition cbegin (m : t) : iterator := 0.

Definition cend (m : t) : iterator := length (nodes m).

Definition find (k : Tuple.t) (m : t) : iterator := find_in k (nodes m).

(** [*it]: the node an iterator points to; nothing at [cend]. *)
Definition deref (it : iterator) (m : t) : option node := nth_error (nodes m) it.

Definition put (k : Tuple.t) (v : V) (m : t) : t :=
  Map (put_in k v (nodes m)) (ordered_put_in k v (nodes m) (nodes_ordered m)).

Definition erase (it : iterator) (m : t) : t :=
  Map (erase_in it (nodes m)) (ordered_erase_in it (nodes m) (nodes_ordered m)).

Definition store (it : iterator) (v : V) (m : t) : t :=
  Map (store_in it v (nodes m)) (ordered_store_in it v (nodes m) (nodes_ordered m)).

Definition clear (m : t) : t := empty.

Definition equal (m1 m2 : t) : bool := equal_in (nodes m1) (nodes m2).

(** Two containers with the same node sequence are the same value. *)
Lemma nodes_inj m1 m2 : nodes m1 = nodes m2 -> m1 = m2.
Proof.
  destruct m1 as [l1 H1], m2 as [l2 H2]. simpl. intros <-.
  f_equal. apply UIP_dec. apply bool_dec.
Qed.

(** *** Facts about the node sequence *)

Lemma ordered_unique k v1 v2 l :
  ordered l = true -> In (k, v1) l -> In (k, v2) l -> v1 = v2.
Proof.
  induction l as [|[k1 w1] l IH]; intros H H1 H2; [destruct H1|].
  destruct H1 as [E1|H1], H2 as [E2|H2].
  - congruence.
  - injection E1 as -> ->. destruct (ordered_not_in _ _ _ H _ H2).
  - injection E2 as -> ->. destruct (ordered_not_in _ _ _ H _ H1).
  - exact (IH (ordered_tail _ _ H) H1 H2).
Qed.

Lemma find_in_le k l : find_in k l <= length l.
Proof.
  induction l as [|[k1 v1] l IH]; simpl; [lia|].
  destruct (Tuple.equiv k1 k); lia.
Qed.

Lemma find_in_absent k l : (forall v, ~ In (k, v) l) -> find_in k l = length l.
Proof.
  induction l as [|[k1 v1] l IH]; intros H; simpl; [reflexivity|].
  destruct (Tuple.equiv k1 k) eqn:E.
  - apply Tuple.equiv_eq in E. subst k1. destruct (H v1). left. reflexivity.
  - f_equal. apply IH. intros v Hin. apply (H v). right. exact Hin.
Qed.

Lemma find_in_nth k l n :
  nth_error l (find_in k l) = Some n -> fst n = k /\ In n l.
Proof.
  induction l as [|[k1 v1] l IH]; simpl; [discriminate|].
  destruct (Tuple.equiv k1 k) eqn:E; simpl.
  - intros H. injection H as <-. apply Tuple.equiv_eq in E. simpl. tauto.
  - intros H. destruct (IH H). tauto.
Qed.

Lemma find_in_In k v l :
  ordered l = true -> In (k, v) l -> nth_error l (find_in k l) = Some (k, v).
Proof.
  induction l as [|[k1 v1] l IH]; intros H Hin; [destruct Hin|]. simpl.
  destruct (Tuple.equiv k1 k) eqn:E.
  - apply Tuple.equiv_eq in E. subst k1. simpl. f_equal. f_equal.
    apply (ordered_unique k v1 v _ H); [left; reflexivity | exact Hin].
  - destruct Hin as [Heq|Hin].
    + injection Heq as -> ->. rewrite Tuple.equiv_refl in E. discriminate.
    + simpl. exact (IH (ordered_tail _ _ H) Hin).
Qed.

Lemma find_in_present k v l :
  ordered l = true -> In (k, v) l -> find_in k l < length l.
Proof.
  intros H Hin. apply nth_error_Some. rewrite (find_in_In _ _ _ H Hin). discriminate.
Qed.

Lemma find_in_end k l v : find_in k l = length l -> ~ In (k, v) l.
Proof.
  induction l as [|[k1 v1] l IH]; simpl; [tauto|].
  destruct (Tuple.equiv k1 k) eqn:E; [discriminate|].
  intros H [Heq|Hin].
  - injection Heq as -> ->. rewrite Tuple.equiv_refl in E. discriminate.
  - apply IH; [lia | exact Hin].
Qed.

Lemma find_put_in k v l :
  nth_error (put_in k v l) (find_in k (put_in k v l)) = Some (k, v).
Proof.
  induction l as [|[k1 v1] l IH]; simpl.
  - rewrite Tuple.equiv_refl. reflexivity.
  - destruct (Tuple.lt k k1) eqn:E1; [|destruct (Tuple.lt k1 k) eqn:E2]; simpl.
    + rewrite Tuple.equiv_refl. reflexivity.
    + rewrite (Tuple.lt_not_equiv _ _ E2). exact IH.
    + rewrite (Tuple.lt_total _ _ E1 E2), Tuple.equiv_refl. reflexivity.
Qed.

Lemma put_in_has k v l : In (k, v) (put_in k v l).
Proof.
  pose proof (find_put_in k v l) as H. apply find_in_nth in H. tauto.
Qed.

Lemma put_in_keeps k v l k' v' :
  k' <> k -> In (k', v') l -> In (k', v') (put_in k v l).
Proof.
  intros Hne. induction l as [|[k1 v1] l IH]; simpl; [tauto|].
  destruct (Tuple.lt k k1) eqn:E1; [|destruct (Tuple.lt k1 k) eqn:E2].
  - intros H. right. exact H.
  - intros [H|H]; [left; exact H | right; exact (IH H)].
  - intros [H|H]; [|right; exact H].
    injection H as -> ->. destruct Hne. apply Tuple.lt_total; assumption.
Qed.

Lemma In_put_in k v l k' v' :
  ordered l = true ->
  In (k', v') (put_in k v l) <-> (k' = k /\ v' = v) \/ (k' <> k /\ In (k', v') l).
Proof.
  intros H. split.
  - intros Hin. destruct (Tuple.eq_dec k' k) as [->|Hne].
    + left. split; [reflexivity|].
      apply (ordered_unique k v' v _ (ordered_put_in k v l H) Hin (put_in_has k v l)).
    + right. split; [exact Hne|].
      destruct (put_in_In _ _ _ _ _ Hin) as [[? _]|?]; [contradiction | assumption].
  - intros [[-> ->]|[Hne Hin]]; [apply put_in_has | apply put_in_keeps; assumption].
Qed.

Lemma length_put_in_absent k v l :
  (forall v0, ~ In (k, v0) l) -> length (put_in k v l) = S (length l).
Proof.
  induction l as [|[k1 v1] l IH]; intros H; simpl; [reflexivity|].
  destruct (Tuple.lt k k1) eqn:E1; [|destruct (Tuple.lt k1 k) eqn:E2]; simpl.
  - reflexivity.
  - f_equal. apply IH. intros v0 Hin. apply (H v0). right. exact Hin.
  - destruct (H v1). left. f_equal. apply Tuple.lt_total; assumption.
Qed.

Lemma length_put_in_present k v v0 l :
  ordered l = true -> In (k, v0) l -> length (put_in k v l) = length l.
Proof.
  induction l as [|[k1 v1] l IH]; intros H Hin; [destruct Hin|]. simpl.
  destruct (Tuple.lt k k1) eqn:E1; [|destruct (Tuple.lt k1 k) eqn:E2]; simpl.
  - destruct Hin as [Heq|Hin].
    + injection Heq as -> ->. rewrite Tuple.lt_irrefl in E1. discriminate.
    + pose proof (ordered_above _ _ _ H _ _ Hin) as E.
      pose proof (Tuple.lt_trans _ _ _ E1 E) as E'.
      rewrite Tuple.lt_irrefl in E'. discriminate.
  - f_equal. destruct Hin as [Heq|Hin].
    + injection Heq as -> ->. rewrite Tuple.lt_irrefl in E2. discriminate.
    + exact (IH (ordered_tail _ _ H) Hin).
  - reflexivity.
Qed.

Lemma length_erase_in it l : it < length l -> S (length (erase_in it l)) = length l.
Proof.
  revert it. induction l as [|n l IH]; intros [|it]; simpl; try lia.
  intros H. f_equal. apply IH. lia.
Qed.

Lemma erase_find_gone k l v :
  ordered l = true -> ~ In (k, v) (erase_in (find_in k l) l).
Proof.
  induction l as [|[k1 v1] l IH]; intros H; simpl; [tauto|].
  destruct (Tuple.equiv k1 k) eqn:E.
  - apply Tuple.equiv_eq in E. subst k1. exact (ordered_not_in _ _ _ H v).
  - intros [Heq|Hin].
    + injection Heq as -> ->. rewrite Tuple.equiv_refl in E. discriminate.
    + exact (IH (ordered_tail _ _ H) Hin).
Qed.

Lemma erase_find_keeps k l k' v' :
  k' <> k -> In (k', v') l -> In (k', v') (erase_in (find_in k l) l).
Proof.
  intros Hne. induction l as [|[k1 v1] l IH]; simpl; [tauto|].
  destruct (Tuple.equiv k1 k) eqn:E.
  - apply Tuple.equiv_eq in E. subst k1.
    intros [Heq|Hin]; [congruence | exact Hin].
  - intros [Heq|Hin]; [left; exact Heq | right; exact (IH Hin)].
Qed.

Lemma In_erase_find k l k' v' :
  ordered l = true ->
  In (k', v') (erase_in (find_in k l) l) <-> k' <> k /\ In (k', v') l.
Proof.
  intros H. split.
  - intros Hin. split; [|exact (erase_in_In _ _ _ Hin)].
    intros ->. exact (erase_find_gone _ _ _ H Hin).
  - intros [Hne Hin]. apply erase_find_keeps; assumption.
Qed.

(** Unlinking the node that a write has just linked restores the sequence. *)
Lemma erase_put_in k v l :
  (forall v0, ~ In (k, v0) l) ->
  erase_in (find_in k (put_in k v l)) (put_in k v l) = l.
Proof.
  induction l as [|[k1 v1] l IH]; intros H; simpl.
  - rewrite Tuple.equiv_refl. reflexivity.
  - destruct (Tuple.lt k k1) eqn:E1; [|destruct (Tuple.lt k1 k) eqn:E2]; simpl.
    + rewrite Tuple.equiv_refl. reflexivity.
    + rewrite (Tuple.lt_not_equiv _ _ E2). simpl. f_equal. apply IH.
      intros v0 Hin. apply (H v0). right. exact Hin.
    + destruct (H v1). left. f_equal. apply Tuple.lt_total; assumption.
Qed.

Lemma length_store_in it v l : length (store_in it v l) = length l.
Proof.
  revert it. induction l as [|[k1 v1] l IH]; intros [|it]; simpl; try reflexivity.
  f_equal. apply IH.
Qed.

Lemma nth_store_in it v l k v0 :
  nth_error l it = Some (k, v0) -> nth_error (store_in it v l) it = Some (k, v).
Proof.
  revert it. induction l as [|[k1 v1] l IH]; intros [|it]; simpl; try discriminate.
  - intros H. injection H as -> ->. reflexivity.
  - apply IH.
Qed.

(** An ordered sequence is determined by the nodes it holds. *)
Lemma ordered_ext l1 l2 :
  ordered l1 = true -> ordered l2 = true ->
  (forall n, In n l1 <-> In n l2) -> l1 = l2.
Proof.
  revert l2. induction l1 as [|[k1 v1] l1 IH]; intros [|[k2 v2] l2] H1 H2 Hext.
  - reflexivity.
  - destruct (proj2 (Hext (k2, v2))). left. reflexivity.
  - destruct (proj1 (Hext (k1, v1))). left. reflexivity.
  - assert (Hhead : (k1, v1) = (k2, v2)).
    { destruct (proj1 (Hext (k1, v1)) (or_introl eq_refl)) as [E|Hin1]; [congruence|].
      destruct (proj2 (Hext (k2, v2)) (or_introl eq_refl)) as [E|Hin2]; [congruence|].
      pose proof (ordered_above _ _ _ H2 _ _ Hin1) as E21.
      pose proof (ordered_above _ _ _ H1 _ _ Hin2) as E12.
      pose proof (Tuple.lt_trans _ _ _ E12 E21) as E.
      rewrite Tuple.lt_irrefl in E. discriminate. }
    injection Hhead as <- <-. f_equal.
    apply IH; [exact (ordered_tail _ _ H1) | exact (ordered_tail _ _ H2) |].
    intros [k v]. split; intros Hin.
    + destruct (proj1 (Hext (k, v)) (or_intror Hin)) as [E|?]; [|assumption].
      injection E as <- <-. destruct (ordered_not_in _ _ _ H1 _ Hin).
    + destruct (proj2 (Hext (k, v)) (or_intror Hin)) as [E|?]; [|assumption].
      injection E as <- <-. destruct (ordered_not_in _ _ _ H2 _ Hin).
Qed.

Lemma equal_in_eq l1 l2 : equal_in l1 l2 = true <-> l1 = l2.
Proof.
  revert l2. induction l1 as [|[k1 v1] l1 IH]; intros [|[k2 v2] l2]; simpl;
    try (split; [discriminate | congruence]); [tauto|].
  rewrite !andb_true_iff, Tuple.eqb_eq, IH.
  destruct (V_eq_dec v1 v2) as [->|Hne]; split.
  - intros [[-> _] ->]. reflexivity.
  - intros H. injection H as -> ->. tauto.
  - intros [[_ H] _]. discriminate.
  - intros H. injection H as _ Hv _. contradiction.
Qed.

(** The keys of an ordered sequence, read as a proposition. *)
Lemma ordered_keys_sorted l :
  ordered l = true ->
  StronglySorted (fun a b => Tuple.lt a b = true) (map fst l).
Proof.
  induction l as [|[k1 v1] l IH]; intros H; simpl; constructor.
  - exact (IH (ordered_tail _ _ H)).
  - apply Forall_forall. intros k Hin. apply in_map_iff in Hin as [[k' v'] [<- Hin]].
    exact (ordered_above _ _ _ H _ _ Hin).
Qed.

(** A key heads at most one node. *)
Lemma ordered_key_once k v l :
  ordered l = true -> In (k, v) l ->
  length (filter (fun n : node => Tuple.eqb (fst n) k) l) = 1.
Proof.
  induction l as [|[k1 v1] l IH]; intros H Hin; [destruct Hin|]. simpl.
  destruct (Tuple.eqb k1 k) eqn:E.
  - apply Tuple.eqb_eq in E. subst k1. simpl. f_equal.
    assert (Hnone : forall n, In n l -> Tuple.eqb (fst n) k = false).
    { intros [k' v'] Hin'. simpl. destruct (Tuple.eqb k' k) eqn:E'; [|reflexivity].
      apply Tuple.eqb_eq in E'. subst k'. destruct (ordered_not_in _ _ _ H _ Hin'). }
    clear -Hnone. induction l as [|n l IHl]; [reflexivity|]. simpl.
    rewrite (Hnone n (or_introl eq_refl)). apply IHl.
    intros n' Hn'. apply Hnone. right. exact Hn'.
  - destruct Hin as [Heq|Hin].
    + injection Heq as -> ->.
      rewrite (proj2 (Tuple.eqb_eq k k) eq_refl) in E. discriminate.
    + exact (IH (ordered_tail _ _ H) Hin).
Qed.

End WithMapped.

Arguments find_in {V} k l.
Arguments put_in {V} k v l.
Arguments erase_in {V} it l.
Arguments store_in {V} it v l.
Arguments ordered {V} l.
Arguments Map {V} nodes nodes_ordered.
Arguments nodes {V} _.
Arguments nodes_ordered {V} _.
Arguments empty {V}.
Arguments size {V} m.
Arguments cbegin {V} m.
Arguments cend {V} m.
Arguments find {V} k m.
Arguments deref {V} it m.
Arguments put {V} k v m.
Arguments erase {V} it m.
Arguments store {V} it v m.
Arguments clear {V} m.
Arguments equal {V} V_eq_dec m1 m2.

End StdMap.

(** ** The class template [sparse_matrix] *)
Module SparseMatrix.
Section Template.

(** [template<typename value_type_t, value_type_t default_value = 0,
              size_t matrix_size = 2>].  A non-type template parameter has
    an integral type, so [value_type_t] comes with a decidable [==]. *)
Variable value_type_t : Type.
Variable value_eq_dec : forall x y : value_type_t, {x = y} + {x <> y}.
Variable default_value : value_type_t.
Variable matrix_size : nat.

(** [value != default_value_]. *)
Definition value_ne (x y : value_type_t) : bool :=
  if value_eq_dec x y then false else true.

(** [using index_t = generate_index_type<size_t, matrix_size>::type]: the
    tuple of [matrix_size] indices. *)
Definition index_t : Type := Tuple.t.

(** The [value_type] of the container: a node [(first, second)]. *)
Local Abbreviation node := (Tuple.t * value_type_t)%type.

(** [using contener_t = std::map<index_t, value_type_t>]. *)
Definition contener_t : Type := StdMap.t value_type_t.

(** The const member [default_value_ {default_value}]. *)
Definition default_value_ : value_type_t := default_value.

(** *** Member functions as actions on [data_]

    Every proxy and iterator holds a reference to the container of the
    matrix it came from, and the terminal proxy writes through it despite
    its [const] qualifier.  A member function is therefore an action that
    receives the container and returns its result with the container it
    leaves behind. *)
Definition action (A : Type) : Type := contener_t -> A * contener_t.

Definition ret {A} (x : A) : action A := fun data_ => (x, data_).

Definition bind {A B} (m : action A) (f : A -> action B) : action B :=
  fun data_ => let (x, data') := m data_ in f x data'.

Definition gets {A} (f : contener_t -> A) : action A := fun data_ => (f data_, data_).

Definition modify (f : contener_t -> contener_t) : action unit :=
  fun data_ => (tt, f data_).

Local Notation "x <- m ;; k" := (bind m (fun x => k))
  (at level 61, m at next level, right associativity).

(** The value an action returns and the container it leaves. *)
Definition result {A} (m : action A) (data_ : contener_t) : A := fst (m data_).
Definition after {A} (m : action A) (data_ : contener_t) : contener_t := snd (m data_).

(** *** The index proxies *)

(** [index_matrix<num, types_t...>]: [num] indices are still to come;
    [index_view_] holds those given so far. *)
Record index_matrix (num : nat) : Type := Index { index_view_ : Tuple.t }.
Arguments Index {num} index_view_.
Arguments index_view_ {num} _.

(** [using next_index = index_matrix<matrix_size - 1, size_t>].  The class
    is meant for [matrix_size >= 1]; [matrix_size - 1] is the predecessor. *)
Definition next_index : Type := index_matrix (pred matrix_size).

(** [sparse_matrix::operator[]]: the first index, as a tuple of one. *)
Definition subscript (index : size_t) : next_index := Index [index].

(** [index_matrix<num>::operator[]]: one more index, [num - 1] to come. *)
Definition next_subscript {num} (p : index_matrix (S num)) (index : size_t)
  : index_matrix num :=
  Index (Tuple.snoc (index_view_ p) index).

(** The indices of a chain [[i1][i2]...] of the length a proxy expects. *)
Fixpoint indices (num : nat) : Type :=
  match num with
  | 0 => unit
  | S num' => (size_t * indices num')%type
  end.

Fixpoint chain {num} : index_matrix num -> indices num -> index_matrix 0 :=
  match num with
  | 0 => fun p _ => p
  | S num' => fun p js => chain (next_subscript p (fst js)) (snd js)
  end.

Fixpoint components {num} : indices num -> list size_t :=
  match num with
  | 0 => fun _ => []
  | S num' => fun js => fst js :: components (snd js)
  end.

(** A coordinate: the index given to the matrix and those given to the
    proxies after it. *)
Definition coordinate : Type := (size_t * indices (pred matrix_size))%type.

(** [matrix[i1][i2]...[iN]]: the terminal proxy of a fully bound chain. *)
Definition cell (c : coordinate) : index_matrix 0 :=
  chain (subscript (fst c)) (snd c).

(** The key under which the cell of a coordinate is stored. *)
Definition key (c : coordinate) : index_t := fst c :: components (snd c).

(** *** The terminal proxy [index_matrix<0, types_t...>] *)

(** [operator=(const value_type_t &value)]. *)
Definition assign (p : index_matrix 0) (value : value_type_t) : action unit :=
  if value_ne value default_value_ then
    modify (StdMap.put (index_view_ p) value)
  else
    it <- gets (StdMap.find (index_view_ p)) ;;
    cend <- gets StdMap.cend ;;
    if negb (Nat.eqb it cend) then modify (StdMap.erase it) else ret tt.

(** [it->second] for an iterator that is not [cend]: [find] returns the
    position of a node or [cend], so there is a node to read. *)
Definition second (it : StdMap.iterator) (data_ : contener_t) : value_type_t :=
  match StdMap.deref it data_ with
  | Some n => snd n
  | None => default_value_
  end.

(** [operator const value_type_t &() const]. *)
Definition convert (p : index_matrix 0) : action value_type_t :=
  it <- gets (StdMap.find (index_view_ p)) ;;
  cend <- gets StdMap.cend ;;
  if negb (Nat.eqb it cend) then gets (second it) else ret default_value_.

(** *** [size] and [clear] *)

Definition size : action nat := gets StdMap.size.

Definition clear : action unit := modify StdMap.clear.

(** *** The iterators *)

(** One component of the tuple an iterator yields. *)
Inductive component : Type :=
| Coord (i : size_t)
| Value (v : value_type_t).

(** [value_t] of [const_iterator_matrix]: [std::tuple<size_t, ..., const
    value_type_t &>], read at the time of the dereference. *)
Definition value_t : Type := list component.

(** [std::tuple_cat(first, std::tie(second))]. *)
Definition tuple_cat_tie (first : index_t) (second' : value_type_t) : value_t :=
  map Coord first ++ [Value second'].

(** [const_iterator_matrix]: a wrapper of the container's iterator. *)
Record const_iterator_matrix : Type :=
  ConstIterator { map_iterator_ : StdMap.iterator }.

(** [cbegin()] and [cend()]. *)
Definition cbegin : action const_iterator_matrix :=
  gets (fun data_ => ConstIterator (StdMap.cbegin data_)).

Definition cend : action const_iterator_matrix :=
  gets (fun data_ => ConstIterator (StdMap.cend data_)).

(** [operator++]. *)
Definition increment (it : const_iterator_matrix) : const_iterator_matrix :=
  ConstIterator (S (map_iterator_ it)).

(** [operator==] and [operator!=]. *)
Definition iterator_eq (a b : const_iterator_matrix) : bool :=
  Nat.eqb (map_iterator_ a) (map_iterator_ b).

Definition iterator_ne (a b : const_iterator_matrix) : bool :=
  negb (iterator_eq a b).

(** [operator*]; nothing to yield at [cend]. *)
Definition dereference (it : const_iterator_matrix) : action (option value_t) :=
  gets (fun data_ =>
          match StdMap.deref (map_iterator_ it) data_ with
          | Some (first, second') => Some (tuple_cat_tie first second')
          | None => None
          end).

(** The loop [for (it = first; it != last; ++it)] collecting what each
    dereference yields, with a bound on the number of rounds. *)
Fixpoint traverse (rounds : nat) (it last : const_iterator_matrix)
  : action (list value_t) :=
  match rounds with
  | 0 => ret []
  | S rounds' =>
      if iterator_ne it last then
        e <- dereference it ;;
        match e with
        | Some x =>
            rest <- traverse rounds' (increment it) last ;;
            ret (x :: rest)
        | None => ret []
        end
      else ret []
  end.

(** A full enumeration: the range-based [for] over the matrix. *)
Definition enumerate : action (list value_t) :=
  n <- size ;;
  first <- cbegin ;;
  last <- cend ;;
  traverse (S n) first last.

(** The coordinate components of a yielded tuple ([std::get<0>] up to
    [std::get<matrix_size - 1>]) and its value ([std::get<matrix_size>]). *)
Definition coords_of (e : value_t) : index_t :=
  flat_map (fun x => match x with Coord i => [i] | Value _ => [] end) e.

Definition values_of (e : value_t) : list value_type_t :=
  flat_map (fun x => match x with Coord _ => [] | Value v => [v] end) e.

(** How often a coordinate shows up in an enumeration. *)
Definition occurrences (c : coordinate) (es : list value_t) : nat :=
  length (filter (fun e => Tuple.eqb (coords_of e) (key c)) es).

(** [value_t] of [iterator_matrix]: [std::tuple<size_t, ..., value_type_t &>].
    The indices are copies; the last component is a reference to the
    mapped value of the node the iterator stood at. *)
Record element : Type := Element { coords : index_t; second_ref : StdMap.iterator }.

(** The member [map_iterator_] of [iterator_matrix]. *)
Record iterator_matrix : Type := Iterator { map_iterator : StdMap.iterator }.

(** [begin()], [end()] and [operator++] of the mutable iterator. *)
Definition begin' : action iterator_matrix :=
  gets (fun data_ => Iterator (StdMap.cbegin data_)).

Definition end' : action iterator_matrix :=
  gets (fun data_ => Iterator (StdMap.cend data_)).

Definition increment' (it : iterator_matrix) : iterator_matrix :=
  Iterator (S (map_iterator it)).

(** [iterator_matrix::operator*]. *)
Definition dereference' (it : iterator_matrix) : action (option element) :=
  gets (fun data_ =>
          match StdMap.deref (map_iterator it) data_ with
          | Some (first, _) => Some (Element first (map_iterator it))
          | None => None
          end).

(** [std::get<matrix_size>(e) = value]: an assignment through the
    reference the element carries. *)
Definition write_through (e : element) (value : value_type_t) : action unit :=
  modify (StdMap.store (second_ref e) value).

(** Reading through the same reference. *)
Definition read_through (e : element) : action value_type_t :=
  gets (second (second_ref e)).

(** *** Matrices as objects

    Copying and moving involve two matrices at once, so the objects of a
    program are kept in a store indexed by address.  Each object owns its
    container: [data_] is a member, not a pointer. *)
Record sparse_matrix : Type := Matrix { data_ : contener_t }.

Definition address : Type := nat.

Definition heap : Type := list sparse_matrix.

(** The object at an address (an empty matrix where there is none). *)
Definition object (a : address) (h : heap) : sparse_matrix :=
  nth a h (Matrix StdMap.empty).

(** Overwriting the object at an address. *)
Fixpoint update (a : address) (m : sparse_matrix) (h : heap) : heap :=
  match h with
  | [] => []
  | m0 :: h' =>
      match a with
      | 0 => m :: h'
      | S a' => m0 :: update a' m h'
      end
  end.

(** Calling a member function on the object at [this]. *)
Definition call {A} (this : address) (m : action A) (h : heap) : A * heap :=
  let (x, data') := m (data_ (object this h)) in
  (x, update this (Matrix data') h).

(** [sparse_matrix() = default]: a new object with an empty container. *)
Definition construct (h : heap) : address * heap :=
  (length h, h ++ [Matrix StdMap.empty]).

(** [sparse_matrix(const sparse_matrix &other) : data_(other.data_)]. *)
Definition copy_construct (other : address) (h : heap) : address * heap :=
  (length h, h ++ [Matrix (data_ (object other h))]).

(** [sparse_matrix(sparse_matrix &&other) : data_(std::move(other.data_))]:
    the new object takes the nodes and the source is left without any. *)
Definition move_construct (other : address) (h : heap) : address * heap :=
  (length h,
   update other (Matrix StdMap.empty) h ++ [Matrix (data_ (object other h))]).

(** [operator==]: [data_ == other.data_]. *)
Definition operator_eq (this other : address) (h : heap) : bool :=
  StdMap.equal value_eq_dec (data_ (object this h)) (data_ (object other h)).

(** [*this != other].  The class declares [operator==] only; the
    comparison is the one derived from it, the negation of [*this == other]. *)
Definition operator_ne (this other : address) (h : heap) : bool :=
  negb (operator_eq this other h).

(** [operator=(const sparse_matrix &other)], for any reading [differs] of
    the guard [*this != other]. *)
Definition copy_assign_with (differs : address -> address -> heap -> bool)
  (this other : address) (h : heap) : heap :=
  if differs this other h then update this (Matrix (data_ (object other h))) h
  else h.

Definition copy_assign : address -> address -> heap -> heap :=
  copy_assign_with operator_ne.

(** [operator=(sparse_matrix &&other)]: [data_ = std::move(other.data_)];
    the target takes the nodes, then the source is left without any. *)
Definition move_assign (this other : address) (h : heap) : heap :=
  update other (Matrix StdMap.empty)
    (update this (Matrix (data_ (object other h))) h).

(** The statements of a client program that change matrices. *)
Inductive statement : Type :=
| Construct
| CopyConstruct (other : address)
| MoveConstruct (other : address)
| CopyAssign (this other : address)
| MoveAssign (this other : address)
| Assign (this : address) (c : coordinate) (value : value_type_t)
| Clear (this : address).

Definition execute (st : statement) (h : heap) : heap :=
  match st with
  | Construct => snd (construct h)
  | CopyConstruct other => snd (copy_construct other h)
  | MoveConstruct other => snd (move_construct other h)
  | CopyAssign this other => copy_assign this other h
  | MoveAssign this other => move_assign this other h
  | Assign this c value => snd (call this (assign (cell c) value) h)
  | Clear this => snd (call this clear h)
  end.

Definition run (prog : list statement) (h : heap) : heap :=
  fold_left (fun h' st => execute st h') prog h.

(** The two ways to change one matrix in place: [m[i1]...[iN] = value]
    and [m.clear()]. *)
Inductive mutation : Type :=
| Write (c : coordinate) (value : value_type_t)
| Wipe.

Definition mutate (this : address) (mu : mutation) : statement :=
  match mu with
  | Write c value => Assign this c value
  | Wipe => Clear this
  end.

(** A sequence of writes [m[c] = v] on one container. *)
Definition write_all (ws : list (coordinate * value_type_t)) (data0 : contener_t)
  : contener_t :=
  fold_left (fun d w => after (assign (cell (fst w)) (snd w)) d) ws data0.

(** *** What a container holds *)

(** The cell of [c] has a node of its own, holding [v]. *)
Definition stored (c : coordinate) (v : value_type_t) (data_ : contener_t) : Prop :=
  In (key c, v) (StdMap.nodes data_).

Definition explicit (c : coordinate) (data_ : contener_t) : Prop :=
  exists v, stored c v data_.

(** *** Reading the definitions *)

Lemma index_view_chain num (p : index_matrix num) (js : indices num) :
  index_view_ (chain p js) = index_view_ p ++ components js.
Proof.
  revert p js. induction num as [|num IH]; intros p js; simpl.
  - rewrite app_nil_r. reflexivity.
  - rewrite IH. simpl. unfold Tuple.snoc. rewrite <- app_assoc. reflexivity.
Qed.

Lemma index_view_cell c : index_view_ (cell c) = key c.
Proof. unfold cell, key. rewrite index_view_chain. reflexivity. Qed.

Lemma value_ne_true x y : value_ne x y = true <-> x <> y.
Proof.
  unfold value_ne. destruct (value_eq_dec x y); split; congruence.
Qed.

Lemma value_ne_false x y : value_ne x y = false <-> x = y.
Proof.
  unfold value_ne. destruct (value_eq_dec x y); split; congruence.
Qed.

Lemma erase_in_end (l : list node) it :
  length l <= it -> StdMap.erase_in it l = l.
Proof.
  revert it. induction l as [|n l IH]; intros [|it] H; simpl in *;
    try reflexivity; try lia.
  f_equal. apply IH. lia.
Qed.

(** The node sequence an assignment through the terminal proxy leaves. *)
Lemma nodes_after_assign p v d :
  StdMap.nodes (after (assign p v) d) =
  if value_ne v default_value
  then StdMap.put_in (index_view_ p) v (StdMap.nodes d)
  else StdMap.erase_in (StdMap.find_in (index_view_ p) (StdMap.nodes d))
         (StdMap.nodes d).
Proof.
  unfold after, assign, default_value_.
  destruct (value_ne v default_value); [reflexivity|].
  unfold bind, gets, modify, ret, StdMap.find, StdMap.cend. simpl.
  destruct (Nat.eqb_spec (StdMap.find_in (index_view_ p) (StdMap.nodes d))
              (length (StdMap.nodes d))) as [E|E]; simpl.
  - rewrite erase_in_end by lia. reflexivity.
  - reflexivity.
Qed.

Lemma In_after_assign p v d k' v' :
  In (k', v') (StdMap.nodes (after (assign p v) d)) <->
  (k' = index_view_ p /\ v' = v /\ v <> default_value) \/
  (k' <> index_view_ p /\ In (k', v') (StdMap.nodes d)).
Proof.
  rewrite nodes_after_assign.
  destruct (value_ne v default_value) eqn:E.
  - apply value_ne_true in E.
    rewrite (StdMap.In_put_in _ _ _ _ _ _ (StdMap.nodes_ordered d)). tauto.
  - apply value_ne_false in E.
    rewrite (StdMap.In_erase_find _ _ _ _ _ (StdMap.nodes_ordered d)). tauto.
Qed.

Lemma after_convert p d : after (convert p) d = d.
Proof.
  unfold after, convert, bind, gets, ret. simpl.
  destruct (negb _); reflexivity.
Qed.

Lemma result_convert p d :
  result (convert p) d = second (StdMap.find (index_view_ p) d) d.
Proof.
  unfold result, convert, bind, gets, ret. simpl.
  destruct (Nat.eqb_spec (StdMap.find (index_view_ p) d) (StdMap.cend d)) as [E|E];
    simpl; [|reflexivity].
  rewrite E. unfold second, StdMap.deref, StdMap.cend.
  rewrite (proj2 (nth_error_None _ _)) by lia. reflexivity.
Qed.

Lemma convert_stored p v d :
  In (index_view_ p, v) (StdMap.nodes d) -> result (convert p) d = v.
Proof.
  intros H. rewrite result_convert. unfold second, StdMap.deref, StdMap.find.
  rewrite (StdMap.find_in_In _ _ _ _ (StdMap.nodes_ordered d) H). reflexivity.
Qed.

Lemma convert_absent p d :
  (forall v, ~ In (index_view_ p, v) (StdMap.nodes d)) ->
  result (convert p) d = default_value.
Proof.
  intros H. rewrite result_convert. unfold second, StdMap.deref, StdMap.find.
  rewrite (StdMap.find_in_absent _ _ _ H).
  rewrite (proj2 (nth_error_None _ _)) by apply le_n. reflexivity.
Qed.

(** A node as the tuple an iterator yields for it. *)
Definition flatten (n : node) : value_t :=
  tuple_cat_tie (fst n) (snd n).

Lemma coords_of_flatten n : coords_of (flatten n) = fst n.
Proof.
  destruct n as [k v]. unfold flatten, tuple_cat_tie, coords_of. simpl.
  rewrite flat_map_app. simpl. rewrite app_nil_r.
  induction k as [|i k IH]; simpl; [reflexivity | f_equal; exact IH].
Qed.

Lemma values_of_flatten n : values_of (flatten n) = [snd n].
Proof.
  destruct n as [k v]. unfold flatten, tuple_cat_tie, values_of. simpl.
  rewrite flat_map_app. simpl.
  induction k as [|i k IH]; simpl; [reflexivity | exact IH].
Qed.

Lemma skipn_nth_error {A} (l : list A) pos x :
  nth_error l pos = Some x -> skipn pos l = x :: skipn (S pos) l.
Proof.
  revert pos. induction l as [|y l IH]; intros [|pos]; simpl; try discriminate.
  - intros H. injection H as ->. reflexivity.
  - intros H. rewrite (IH _ H). reflexivity.
Qed.

(** With enough rounds the loop yields every node from its start on. *)
Lemma traverse_skipn rounds pos d :
  length (StdMap.nodes d) - pos < rounds ->
  pos <= length (StdMap.nodes d) ->
  traverse rounds (ConstIterator pos) (ConstIterator (length (StdMap.nodes d))) d
  = (map flatten (skipn pos (StdMap.nodes d)), d).
Proof.
  revert pos. induction rounds as [|rounds IH]; intros pos Hr Hp; [lia|].
  simpl. unfold iterator_ne, iterator_eq. simpl.
  destruct (Nat.eqb_spec pos (length (StdMap.nodes d))) as [E|E]; simpl.
  - rewrite E, skipn_all. reflexivity.
  - unfold bind, dereference, gets, StdMap.deref. cbn [map_iterator_].
    destruct (nth_error (StdMap.nodes d) pos) as [[first second']|] eqn:En.
    + rewrite (skipn_nth_error _ _ _ En). unfold increment. cbn [map_iterator_].
      rewrite IH by lia. reflexivity.
    + apply nth_error_None in En. lia.
Qed.

Lemma enumerate_nodes d : enumerate d = (map flatten (StdMap.nodes d), d).
Proof.
  unfold enumerate, bind, size, cbegin, cend, gets, StdMap.size, StdMap.cbegin,
    StdMap.cend.
  rewrite traverse_skipn by lia. reflexivity.
Qed.

Lemma occurrences_flatten c l :
  occurrences c (map flatten l) =
  length (filter (fun n : node => Tuple.eqb (fst n) (key c)) l).
Proof.
  unfold occurrences. induction l as [|n l IH]; simpl; [reflexivity|].
  rewrite coords_of_flatten. destruct (Tuple.eqb (fst n) (key c)); simpl;
    rewrite IH; reflexivity.
Qed.

Lemma occurrences_absent c l :
  (forall v, ~ In (key c, v) l) -> occurrences c (map flatten l) = 0.
Proof.
  intros H. rewrite occurrences_flatten.
  induction l as [|[k v] l IH]; simpl; [reflexivity|].
  destruct (Tuple.eqb k (key c)) eqn:E.
  - apply Tuple.eqb_eq in E. subst k. destruct (H v). left. reflexivity.
  - apply IH. intros v' Hin. apply (H v'). right. exact Hin.
Qed.

Lemma components_inj num (js js' : indices num) :
  components js = components js' -> js = js'.
Proof.
  induction num as [|num IH]; simpl in *.
  - destruct js, js'. reflexivity.
  - destruct js as [j js], js' as [j' js']. simpl. intros H.
    injection H as -> H. rewrite (IH _ _ H). reflexivity.
Qed.

Lemma key_inj c c' : key c = key c' -> c = c'.
Proof.
  destruct c as [i js], c' as [i' js']. unfold key. simpl. intros H.
  injection H as -> H. rewrite (components_inj _ _ _ H). reflexivity.
Qed.

Lemma stored_after_assign c v d c' v' :
  stored c' v' (after (assign (cell c) v) d) <->
  (c' = c /\ v' = v /\ v <> default_value) \/ (c' <> c /\ stored c' v' d).
Proof.
  unfold stored. rewrite In_after_assign, index_view_cell. split.
  - intros [[Hk H]|[Hk H]]; [left | right].
    + split; [exact (key_inj _ _ Hk) | exact H].
    + split; [congruence | exact H].
  - intros [[-> H]|[Hc H]]; [left; tauto | right].
    split; [|exact H]. intros Hk. exact (Hc (key_inj _ _ Hk)).
Qed.

Lemma explicit_absent c d :
  ~ explicit c d -> forall v, ~ In (index_view_ (cell c), v) (StdMap.nodes d).
Proof.
  intros H v Hin. apply H. exists v. unfold stored.
  rewrite <- index_view_cell. exact Hin.
Qed.

Lemma assign_default_absent c d :
  ~ explicit c d -> after (assign (cell c) default_value) d = d.
Proof.
  intros H. apply StdMap.nodes_inj. rewrite nodes_after_assign.
  rewrite (proj2 (value_ne_false _ _) eq_refl).
  rewrite (StdMap.find_in_absent _ _ _ (explicit_absent _ _ H)).
  apply erase_in_end. apply le_n.
Qed.

Lemma not_explicit_after_other c w d :
  fst w <> c -> ~ explicit c d ->
  ~ explicit c (after (assign (cell (fst w)) (snd w)) d).
Proof.
  intros Hne H [v Hs]. apply stored_after_assign in Hs as [[Hc _]|[_ Hs]].
  - exact (Hne (eq_sym Hc)).
  - apply H. exists v. exact Hs.
Qed.

Lemma not_explicit_write_all c ws d :
  (forall w, In w ws -> fst w <> c) -> ~ explicit c d ->
  ~ explicit c (write_all ws d).
Proof.
  revert d. induction ws as [|w ws IH]; intros d Hws H; [exact H|].
  simpl. apply IH.
  - intros w' Hin. apply Hws. right. exact Hin.
  - apply not_explicit_after_other; [apply Hws; left; reflexivity | exact H].
Qed.

Lemma not_explicit_after_default c d :
  ~ explicit c (after (assign (cell c) default_value) d).
Proof.
  intros [v Hs]. apply stored_after_assign in Hs as [[_ [_ H]]|[H _]];
    apply H; reflexivity.
Qed.

Lemma not_explicit_empty c : ~ explicit c StdMap.empty.
Proof. intros [v []]. Qed.

(** *** The terminal proxy *)

(** C1: assigning a value other than the default through a fully bound
    index chain makes the cell read as that value, makes its coordinate
    show up exactly once in a full enumeration, and makes [size()] one
    larger, unless the cell had a node already, in which case [size()]
    stays. *)
Theorem assign_value_stores (c : coordinate) (v : value_type_t) (d : contener_t) :
  v <> default_value ->
  let d' := after (assign (cell c) v) d in
  result (convert (cell c)) d' = v /\
  occurrences c (result enumerate d') = 1 /\
  (explicit c d -> result size d' = result size d) /\
  (~ explicit c d -> result size d' = S (result size d)).
Proof.
  intros Hv d'.
  assert (Hs : stored c v d') by (apply stored_after_assign; left; tauto).
  assert (Hn : StdMap.nodes d' = StdMap.put_in (key c) v (StdMap.nodes d)).
  { unfold d'. rewrite nodes_after_assign, index_view_cell.
    rewrite (proj2 (value_ne_true _ _) Hv). reflexivity. }
  split; [|split; [|split]].
  - apply convert_stored. rewrite index_view_cell. exact Hs.
  - unfold result. rewrite enumerate_nodes. simpl. rewrite occurrences_flatten.
    exact (StdMap.ordered_key_once _ _ _ _ (StdMap.nodes_ordered d') Hs).
  - intros [v0 H0]. unfold result, size, gets, StdMap.size. simpl. rewrite Hn.
    exact (StdMap.length_put_in_present _ _ _ _ _ (StdMap.nodes_ordered d) H0).
  - intros H0. unfold result, size, gets, StdMap.size. simpl. rewrite Hn.
    apply StdMap.length_put_in_absent. intros v0 Hin. apply H0. exists v0. exact Hin.
Qed.

(** C2: assigning the default value through a fully bound index chain
    leaves the cell without a node, so that it reads as the default; it
    changes nothing when the cell had no node, and makes [size()] exactly
    one smaller when it had one. *)
Theorem assign_default_erases (c : coordinate) (d : contener_t) :
  let d' := after (assign (cell c) default_value) d in
  ~ explicit c d' /\
  result (convert (cell c)) d' = default_value /\
  (~ explicit c d -> d' = d /\ result size d' = result size d) /\
  (explicit c d -> S (result size d') = result size d).
Proof.
  intros d'.
  assert (Hgone : ~ explicit c d') by apply not_explicit_after_default.
  split; [exact Hgone | split; [|split]].
  - apply convert_absent. apply explicit_absent. exact Hgone.
  - intros H0. unfold d'. rewrite (assign_default_absent _ _ H0). tauto.
  - intros [v0 H0]. unfold result, size, gets, StdMap.size, d'. simpl.
    rewrite nodes_after_assign, index_view_cell.
    rewrite (proj2 (value_ne_false _ _) eq_refl).
    apply StdMap.length_erase_in.
    exact (StdMap.find_in_present _ _ _ _ (StdMap.nodes_ordered d) H0).
Qed.

(** C3: reading a cell through a fully bound index chain returns the value
    of its node when it has one and the default value otherwise, and leaves
    the container as it was; a cell that no write has named since the
    matrix was created reads as the default. *)
Theorem convert_reads (c : coordinate) (d : contener_t) :
  after (convert (cell c)) d = d /\
  (forall v, stored c v d -> result (convert (cell c)) d = v) /\
  (~ explicit c d -> result (convert (cell c)) d = default_value) /\
  (forall ws, (forall w, In w ws -> fst w <> c) ->
              result (convert (cell c)) (write_all ws StdMap.empty) = default_value).
Proof.
  split; [apply after_convert | split; [|split]].
  - intros v Hs. apply convert_stored. rewrite index_view_cell. exact Hs.
  - intros H. apply convert_absent. apply explicit_absent. exact H.
  - intros ws Hws. apply convert_absent. apply explicit_absent.
    apply not_explicit_write_all; [exact Hws | apply not_explicit_empty].
Qed.

(** C10: on a cell without a node, an assignment followed by an assignment
    of the default value brings the container back to what it was. *)
Theorem assign_then_default_restores (c : coordinate) (v : value_type_t)
  (d : contener_t) :
  ~ explicit c d ->
  after (assign (cell c) default_value) (after (assign (cell c) v) d) = d.
Proof.
  intros H. apply StdMap.nodes_inj. rewrite !nodes_after_assign.
  rewrite (proj2 (value_ne_false _ _) eq_refl).
  pose proof (explicit_absent _ _ H) as Habs.
  destruct (value_ne v default_value).
  - apply StdMap.erase_put_in. exact Habs.
  - rewrite (StdMap.find_in_absent _ _ _ Habs).
    rewrite (erase_in_end (StdMap.nodes d) _ (le_n _)).
    rewrite (StdMap.find_in_absent _ _ _ Habs). apply erase_in_end. apply le_n.
Qed.

(** *** Enumeration *)

Lemma flatten_inj n n' : flatten n = flatten n' -> n = n'.
Proof.
  intros H. destruct n as [k v], n' as [k' v'].
  pose proof (f_equal coords_of H) as Hk. rewrite !coords_of_flatten in Hk.
  pose proof (f_equal values_of H) as Hv. rewrite !values_of_flatten in Hv.
  simpl in *. congruence.
Qed.

(** A read either finds the node of the cell or falls back to the default. *)
Lemma convert_cases c d :
  (exists v, stored c v d /\ result (convert (cell c)) d = v) \/
  (~ explicit c d /\ result (convert (cell c)) d = default_value).
Proof.
  destruct (nth_error (StdMap.nodes d) (StdMap.find_in (key c) (StdMap.nodes d)))
    as [[k v]|] eqn:E.
  - left. exists v. apply StdMap.find_in_nth in E as [Hk Hin]. simpl in Hk. subst k.
    split; [exact Hin|]. apply convert_stored. rewrite index_view_cell. exact Hin.
  - right. assert (Hnone : ~ explicit c d).
    { intros [v Hs]. unfold stored in Hs.
      rewrite (StdMap.find_in_In _ _ _ _ (StdMap.nodes_ordered d) Hs) in E.
      discriminate. }
    split; [exact Hnone|]. apply convert_absent. apply explicit_absent. exact Hnone.
Qed.

(** The nodes of a container that a sequence of writes has filled. *)
Lemma In_write_all ws d k v :
  NoDup (map fst ws) ->
  In (k, v) (StdMap.nodes (write_all ws d)) <->
  (exists c, k = key c /\ In (c, v) ws /\ v <> default_value) \/
  ((forall w, In w ws -> key (fst w) <> k) /\ In (k, v) (StdMap.nodes d)).
Proof.
  revert d. induction ws as [|[c0 v0] ws IH]; intros d Hnd.
  - simpl. split; [intros H; right; tauto | intros [[c [_ [[] _]]]|[_ H]]; exact H].
  - simpl in Hnd. apply NoDup_cons_iff in Hnd as [Hfresh Hnd].
    change (write_all ((c0, v0) :: ws) d)
      with (write_all ws (after (assign (cell c0) v0) d)).
    rewrite (IH _ Hnd), In_after_assign, index_view_cell. split.
    + intros [[c [Hk [Hin Hv]]]|[Hws [[Hk [Hv0 Hv]]|[Hk Hin]]]].
      * left. exists c. split; [exact Hk | split; [right; exact Hin | exact Hv]].
      * left. exists c0. subst v. split; [exact Hk | split; [left; reflexivity | exact Hv]].
      * right. split; [|exact Hin].
        intros w [<-|Hw]; [simpl; congruence | apply Hws; exact Hw].
    + intros [[c [Hk [[Heq|Hin] Hv]]]|[Hws Hin]].
      * injection Heq as -> ->. right. split; [|left; tauto].
        intros w Hw Hkw. apply Hfresh. apply in_map_iff. exists w.
        split; [|exact Hw]. apply key_inj. congruence.
      * left. exists c. tauto.
      * right. split.
        -- intros w Hw. apply Hws. right. exact Hw.
        -- right. split; [|exact Hin].
           intros Hk. apply (Hws (c0, v0)); [left; reflexivity | simpl; congruence].
Qed.

Lemma write_all_permutation ws ws' d :
  NoDup (map fst ws) -> Permutation ws ws' -> write_all ws d = write_all ws' d.
Proof.
  intros Hnd Hp. apply StdMap.nodes_inj.
  apply StdMap.ordered_ext; try apply StdMap.nodes_ordered.
  assert (Hnd' : NoDup (map fst ws')).
  { apply (Permutation_NoDup (Permutation_map fst Hp) Hnd). }
  intros [k v]. rewrite (In_write_all _ _ _ _ Hnd), (In_write_all _ _ _ _ Hnd').
  split; (intros [[c [Hk [Hin Hv]]]|[Hws Hin]]; [left; exists c | right]).
  - split; [exact Hk | split; [exact (Permutation_in _ Hp Hin) | exact Hv]].
  - split; [|exact Hin]. intros w Hw. apply Hws.
    exact (Permutation_in _ (Permutation_sym Hp) Hw).
  - split; [exact Hk | split; [exact (Permutation_in _ (Permutation_sym Hp) Hin) | exact Hv]].
  - split; [|exact Hin]. intros w Hw. apply Hws. exact (Permutation_in _ Hp Hw).
Qed.

(** Every node of a matrix filled through the index chain belongs to a
    coordinate and holds a value other than the default. *)
Definition well_formed (d : contener_t) : Prop :=
  forall k v, In (k, v) (StdMap.nodes d) ->
              v <> default_value /\ exists c, k = key c.

Lemma well_formed_write_all ws d : well_formed d -> well_formed (write_all ws d).
Proof.
  revert d. induction ws as [|w ws IH]; intros d H; [exact H|].
  simpl. apply IH. intros k v Hin.
  apply In_after_assign in Hin as [[Hk [-> Hv]]|[_ Hin]].
  - split; [exact Hv|]. exists (fst w). rewrite Hk. apply index_view_cell.
  - exact (H k v Hin).
Qed.

Lemma well_formed_empty : well_formed StdMap.empty.
Proof. intros k v []. Qed.

Lemma In_store_in it v (l : list node) k v0 :
  nth_error l it = Some (k, v0) -> In (k, v) (StdMap.store_in it v l).
Proof.
  intros H. apply (nth_error_In _ it). exact (StdMap.nth_store_in _ _ _ _ _ _ H).
Qed.

(** C7: a value written through the element a mutable iterator yields
    replaces the value of the node in place; written that way, the default
    value stays in the container as the value of a node, where the same
    assignment through the index chain would have removed the node. *)
Theorem write_through_keeps_node (it : iterator_matrix) (c : coordinate)
  (v0 : value_type_t) (d : contener_t) :
  StdMap.deref (map_iterator it) d = Some (key c, v0) ->
  exists e,
    result (dereference' it) d = Some e /\ coords e = key c /\
    (forall v, stored c v (after (write_through e v) d) /\
               result size (after (write_through e v) d) = result size d) /\
    stored c default_value (after (write_through e default_value) d) /\
    result (read_through e) (after (write_through e default_value) d) = default_value /\
    ~ explicit c (after (assign (cell c) default_value) d).
Proof.
  intros H. exists (Element (key c) (map_iterator it)).
  assert (Hst : forall v, stored c v (after (write_through (Element (key c) (map_iterator it)) v) d)).
  { intros v. unfold stored, after, write_through, modify. simpl.
    exact (In_store_in _ _ _ _ _ H). }
  split; [|split; [reflexivity | split; [|split; [apply Hst | split]]]].
  - unfold result, dereference', gets. simpl. rewrite H. reflexivity.
  - intros v. split; [apply Hst|].
    unfold result, after, size, write_through, modify, gets, StdMap.size. simpl.
    apply StdMap.length_store_in.
  - unfold result, after, read_through, write_through, modify, gets, second,
      StdMap.deref. simpl.
    rewrite (StdMap.nth_store_in _ _ _ _ _ _ H). reflexivity.
  - apply not_explicit_after_default.
Qed.

(** *** Objects and their special member functions *)

Lemma object_update_same a m h : a < length h -> object a (update a m h) = m.
Proof.
  unfold object. revert a. induction h as [|m0 h IH]; intros [|a] H; simpl in *;
    try lia; [reflexivity|].
  apply IH. lia.
Qed.

Lemma object_update_other a b m h : a <> b -> object a (update b m h) = object a h.
Proof.
  unfold object. revert a b. induction h as [|m0 h IH]; intros [|a] [|b] H; simpl;
    try reflexivity; try congruence.
  apply IH. congruence.
Qed.

Lemma length_update a m h : length (update a m h) = length h.
Proof.
  revert a. induction h as [|m0 h IH]; intros [|a]; simpl; try reflexivity.
  f_equal. apply IH.
Qed.

Lemma update_same a h : update a (Matrix (data_ (object a h))) h = h.
Proof.
  unfold object. revert a. induction h as [|m0 h IH]; intros [|a]; simpl;
    try reflexivity.
  - destruct m0. reflexivity.
  - f_equal. apply IH.
Qed.

Lemma object_old a m h : a < length h -> object a (h ++ [m]) = object a h.
Proof. intros H. unfold object. apply app_nth1. exact H. Qed.

Lemma object_new m h : object (length h) (h ++ [m]) = m.
Proof. unfold object. rewrite app_nth2, Nat.sub_diag by apply le_n. reflexivity. Qed.

Lemma snd_call {A} this (m : action A) h :
  snd (call this m h) = update this (Matrix (after m (data_ (object this h)))) h.
Proof. unfold call, after. destruct (m (data_ (object this h))). reflexivity. Qed.

Lemma execute_mutate this mu h :
  exists d, execute (mutate this mu) h = update this (Matrix d) h.
Proof.
  destruct mu as [c v|]; cbn [mutate execute]; rewrite snd_call; eexists; reflexivity.
Qed.

(** Changing one object in place leaves every other object as it was. *)
Lemma object_run_mutate a this mus h :
  a <> this -> object a (run (map (mutate this) mus) h) = object a h.
Proof.
  intros Hne. revert h. induction mus as [|mu mus IH]; intros h; [reflexivity|].
  simpl. unfold run in IH. rewrite IH.
  destruct (execute_mutate this mu h) as [d ->].
  apply object_update_other. exact Hne.
Qed.

(** No node holds the default value. *)
Definition elided (d : contener_t) : Prop :=
  forall k v, In (k, v) (StdMap.nodes d) -> v <> default_value.

Lemma elided_empty : elided StdMap.empty.
Proof. intros k v []. Qed.

Lemma elided_after_assign p v d : elided d -> elided (after (assign p v) d).
Proof.
  intros H k v' Hin. apply In_after_assign in Hin as [[_ [-> Hv]]|[_ Hin]].
  - exact Hv.
  - exact (H k v' Hin).
Qed.

Definition all_elided (h : heap) : Prop := Forall (fun m => elided (data_ m)) h.

Lemma all_elided_object a h : all_elided h -> elided (data_ (object a h)).
Proof.
  intros H. unfold object. destruct (Nat.lt_ge_cases a (length h)) as [Hlt|Hge].
  - apply (proj1 (Forall_forall _ _) H). apply nth_In. exact Hlt.
  - rewrite nth_overflow by exact Hge. apply elided_empty.
Qed.

Lemma all_elided_update a m h :
  all_elided h -> elided (data_ m) -> all_elided (update a m h).
Proof.
  unfold all_elided. intros H Hm. revert a.
  induction H as [|m0 h H0 H IH]; intros [|a]; simpl.
  - constructor.
  - constructor.
  - constructor; assumption.
  - constructor; [assumption | apply IH].
Qed.

Lemma all_elided_push m h :
  all_elided h -> elided (data_ m) -> all_elided (h ++ [m]).
Proof.
  intros H Hm. apply Forall_app. split; [exact H | constructor; [exact Hm | constructor]].
Qed.

Lemma all_elided_execute st h : all_elided h -> all_elided (execute st h).
Proof.
  intros H. destruct st as [|other|other|this other|this other|this c v|this];
    cbn [execute construct copy_construct move_construct snd].
  - apply all_elided_push; [exact H | apply elided_empty].
  - apply all_elided_push; [exact H | apply all_elided_object; exact H].
  - apply all_elided_push; [|apply all_elided_object; exact H].
    apply all_elided_update; [exact H | apply elided_empty].
  - unfold copy_assign, copy_assign_with. destruct (operator_ne this other h); [|exact H].
    apply all_elided_update; [exact H | apply all_elided_object; exact H].
  - unfold move_assign. apply all_elided_update; [|apply elided_empty].
    apply all_elided_update; [exact H | apply all_elided_object; exact H].
  - rewrite snd_call. apply all_elided_update; [exact H|].
    apply elided_after_assign. apply all_elided_object. exact H.
  - rewrite snd_call. apply all_elided_update; [exact H | apply elided_empty].
Qed.

Lemma all_elided_run prog h : all_elided h -> all_elided (run prog h).
Proof.
  revert h. induction prog as [|st prog IH]; intros h H; [exact H|].
  simpl. apply IH. apply all_elided_execute. exact H.
Qed.

(** C4: in a program that starts without matrices and only constructs,
    copies, moves, clears and assigns through the index chain, no node of
    any matrix ever holds the default value. *)
Theorem reachable_nodes_not_default (prog : list statement) (a : address)
  (k : index_t) (v : value_type_t) :
  In (k, v) (StdMap.nodes (data_ (object a (run prog [])))) ->
  v <> default_value.
Proof.
  apply (all_elided_object a (run prog [])).
  apply all_elided_run. constructor.
Qed.

(** C8: the copy constructor makes a new object holding the cells of the
    original; whatever is then assigned or cleared in the copy leaves the
    cells of the original as they were, and the other way round. *)
Theorem copy_is_independent (h : heap) (original : address) (mus : list mutation) :
  original < length h ->
  let copy := fst (copy_construct original h) in
  let h' := snd (copy_construct original h) in
  copy <> original /\
  data_ (object copy h') = data_ (object original h) /\
  data_ (object original h') = data_ (object original h) /\
  data_ (object original (run (map (mutate copy) mus) h'))
  = data_ (object original h) /\
  data_ (object copy (run (map (mutate original) mus) h'))
  = data_ (object original h).
Proof.
  intros Hlt. simpl.
  assert (Hne : length h <> original) by lia.
  split; [exact Hne | split; [|split; [|split]]].
  - rewrite object_new. reflexivity.
  - rewrite object_old by exact Hlt. reflexivity.
  - rewrite object_run_mutate by congruence.
    rewrite object_old by exact Hlt. reflexivity.
  - rewrite object_run_mutate by exact Hne.
    rewrite object_new. reflexivity.
Qed.

Lemma operator_ne_false this other h :
  operator_ne this other h = false ->
  data_ (object this h) = data_ (object other h).
Proof.
  unfold operator_ne, operator_eq, StdMap.equal. intros H.
  apply negb_false_iff in H. apply StdMap.equal_in_eq in H.
  apply StdMap.nodes_inj. exact H.
Qed.

(** C9: copy assignment leaves the target with the cells of the source,
    as a copy of its own: the source and every other object stay as they
    were, also when the target is changed afterwards.  Assigning a matrix
    to itself changes nothing, whatever the guard answers. *)
Theorem copy_assign_copies (h : heap) (this other : address) :
  this < length h ->
  data_ (object this (copy_assign this other h)) = data_ (object other h) /\
  (forall a, a <> this -> object a (copy_assign this other h) = object a h) /\
  (forall mus, other <> this ->
     data_ (object other (run (map (mutate this) mus) (copy_assign this other h)))
     = data_ (object other h)) /\
  (forall mus, other <> this ->
     data_ (object this (run (map (mutate other) mus) (copy_assign this other h)))
     = data_ (object other h)) /\
  copy_assign this this h = h /\
  (forall differs, copy_assign_with differs this this h = h).
Proof.
  intros Hlt.
  assert (Hother : forall a, a <> this -> object a (copy_assign this other h) = object a h).
  { intros a Hne. unfold copy_assign, copy_assign_with.
    destruct (operator_ne this other h); [|reflexivity].
    apply object_update_other. exact Hne. }
  assert (Hself : forall differs, copy_assign_with differs this this h = h).
  { intros differs. unfold copy_assign_with.
    destruct (differs this this h); [apply update_same | reflexivity]. }
  assert (Hthis : data_ (object this (copy_assign this other h))
                  = data_ (object other h)).
  { unfold copy_assign, copy_assign_with.
    destruct (operator_ne this other h) eqn:E.
    - rewrite object_update_same by exact Hlt. reflexivity.
    - apply operator_ne_false. exact E. }
  split; [exact Hthis | split; [exact Hother | split; [|split; [|split]]]].
  - intros mus Hne. rewrite object_run_mutate by exact Hne.
    rewrite Hother by exact Hne. reflexivity.
  - intros mus Hne. rewrite object_run_mutate by congruence. exact Hthis.
  - apply Hself.
  - exact Hself.
Qed.

(** *** Assignments composed *)

(** What a read returns is decided by the node of the cell alone. *)
Lemma convert_determined c d1 d2 :
  (forall v, stored c v d1 <-> stored c v d2) ->
  result (convert (cell c)) d1 = result (convert (cell c)) d2.
Proof.
  intros H.
  destruct (convert_cases c d1) as [[v1 [Hs1 ->]]|[Hn1 ->]];
    destruct (convert_cases c d2) as [[v2 [Hs2 ->]]|[Hn2 ->]].
  - apply H in Hs1.
    exact (StdMap.ordered_unique _ _ _ _ _ (StdMap.nodes_ordered d2) Hs1 Hs2).
  - destruct Hn2. exists v1. apply H. exact Hs1.
  - destruct Hn1. exists v2. apply H. exact Hs2.
  - reflexivity.
Qed.

(** X1: an assignment through the index chain changes what one cell
    reads as and no other: every other coordinate reads as before. *)
Theorem assign_leaves_other_cells (c c' : coordinate) (v : value_type_t)
  (d : contener_t) :
  c' <> c ->
  result (convert (cell c')) (after (assign (cell c) v) d)
  = result (convert (cell c')) d.
Proof.
  intros Hne. apply convert_determined. intros v'.
  rewrite stored_after_assign. tauto.
Qed.

(** X2: of two assignments to the same cell only the second counts. *)
Theorem assign_overwrites (c : coordinate) (v1 v2 : value_type_t) (d : contener_t) :
  after (assign (cell c) v2) (after (assign (cell c) v1) d)
  = after (assign (cell c) v2) d.
Proof.
  apply StdMap.nodes_inj.
  apply StdMap.ordered_ext; try apply StdMap.nodes_ordered.
  intros [k w]. rewrite !In_after_assign. tauto.
Qed.

(** X3: assignments to two different cells can be swapped, whatever the
    values, the default included. *)
Theorem assign_commutes (c1 c2 : coordinate) (v1 v2 : value_type_t)
  (d : contener_t) :
  c1 <> c2 ->
  after (assign (cell c1) v1) (after (assign (cell c2) v2) d)
  = after (assign (cell c2) v2) (after (assign (cell c1) v1) d).
Proof.
  intros Hne.
  assert (Hk : index_view_ (cell c1) <> index_view_ (cell c2)).
  { rewrite !index_view_cell. intros E. exact (Hne (key_inj _ _ E)). }
  apply StdMap.nodes_inj.
  apply StdMap.ordered_ext; try apply StdMap.nodes_ordered.
  intros [k w]. rewrite !In_after_assign.
  split; intros [[-> H]|[Hk1 [[-> H]|[Hk2 H]]]]; auto 6.
Qed.

(** X4: assigning to a cell the value it reads as changes nothing, provided
    the node of the cell, if there is one, does not hold the default value. *)
Theorem assign_read_back (c : coordinate) (d : contener_t) :
  (forall v, stored c v d -> v <> default_value) ->
  after (assign (cell c) (result (convert (cell c)) d)) d = d.
Proof.
  intros Hnd.
  destruct (convert_cases c d) as [[v [Hs ->]]|[Hn ->]].
  - apply StdMap.nodes_inj.
    apply StdMap.ordered_ext; try apply StdMap.nodes_ordered.
    intros [k w]. rewrite In_after_assign, index_view_cell. split.
    + intros [[-> [-> _]]|[_ H]]; [exact Hs | exact H].
    + intros H. destruct (Tuple.eq_dec k (key c)) as [->|Hk].
      * left. split; [reflexivity|].
        split; [|exact (Hnd v Hs)].
        exact (StdMap.ordered_unique _ _ _ _ _ (StdMap.nodes_ordered d) H Hs).
      * right. tauto.
  - apply assign_default_absent. exact Hn.
Qed.

(** X5: what an enumeration yields after an assignment: the tuple of the
    assigned cell when the value is not the default, and the tuples of all
    other cells as before. *)
Theorem enumerate_after_assign (c : coordinate) (v : value_type_t)
  (d : contener_t) (e : value_t) :
  In e (result enumerate (after (assign (cell c) v) d)) <->
  (e = tuple_cat_tie (key c) v /\ v <> default_value) \/
  (coords_of e <> key c /\ In e (result enumerate d)).
Proof.
  unfold result. rewrite !enumerate_nodes. simpl. rewrite !in_map_iff. split.
  - intros [[k w] [<- Hin]]. rewrite coords_of_flatten. simpl.
    apply In_after_assign in Hin as [[-> [-> Hv]]|[Hk Hin]].
    + left. rewrite index_view_cell. split; [reflexivity | exact Hv].
    + right. rewrite index_view_cell in Hk. split; [exact Hk|].
      exists (k, w). split; [reflexivity | exact Hin].
  - intros [[-> Hv]|[Hk [[k w] [<- Hin]]]].
    + exists (key c, v). split; [reflexivity|].
      apply In_after_assign. left. rewrite index_view_cell. tauto.
    + rewrite coords_of_flatten in Hk. simpl in Hk.
      exists (k, w). split; [reflexivity|].
      apply In_after_assign. right. rewrite index_view_cell. tauto.
Qed.

(** *** The index chain, [size], [clear] and the two traversals *)

Lemma length_components num (js : indices num) : length (components js) = num.
Proof.
  induction num as [|num IH]; simpl; [reflexivity|]. rewrite IH. reflexivity.
Qed.

(** X6: each [operator[]] of the chain appends its index to those given
    before: a proxy expecting [num] more indices ends, after them, with its
    tuple extended by exactly these [num] indices in the order given, and the
    terminal proxy of [matrix[i1]...[iN]] holds [i1, ..., iN], a tuple of
    [matrix_size] indices that no other coordinate produces. *)
Theorem chain_holds_indices (num : nat) (p : index_matrix num) (js : indices num)
  (c : coordinate) :
  index_view_ (chain p js) = index_view_ p ++ components js /\
  length (index_view_ (chain p js)) = length (index_view_ p) + num /\
  index_view_ (cell c) = fst c :: components (snd c) /\
  (0 < matrix_size -> length (index_view_ (cell c)) = matrix_size) /\
  (forall c', index_view_ (cell c') = index_view_ (cell c) -> c' = c).
Proof.
  split; [apply index_view_chain | split; [|split; [|split]]].
  - rewrite index_view_chain, length_app, length_components. reflexivity.
  - apply index_view_cell.
  - intros Hpos. rewrite index_view_cell. unfold key. simpl.
    rewrite length_components. lia.
  - intros c' H. rewrite !index_view_cell in H. exact (key_inj _ _ H).
Qed.

(** X7: [size()] is the number of tuples a full enumeration yields; the
    enumeration leaves the container as it was, and the loop has ended by
    itself: more rounds yield nothing more. *)
Theorem size_counts_enumeration (d : contener_t) :
  result size d = length (result enumerate d) /\
  after enumerate d = d /\
  (forall rounds, result size d < rounds ->
     traverse rounds (result cbegin d) (result cend d) d = enumerate d).
Proof.
  unfold result, after. rewrite enumerate_nodes. simpl.
  split; [|split; [reflexivity|]].
  - rewrite length_map. reflexivity.
  - intros rounds Hr. unfold StdMap.cbegin, StdMap.cend, StdMap.size in *.
    rewrite traverse_skipn by lia. reflexivity.
Qed.

(** X8: after [clear()] the matrix has size 0, enumerates nothing, and
    every cell reads as the default value. *)
Theorem clear_empties (d : contener_t) (c : coordinate) :
  result size (after clear d) = 0 /\
  result enumerate (after clear d) = [] /\
  result (convert (cell c)) (after clear d) = default_value.
Proof.
  split; [reflexivity | split; [reflexivity|]].
  apply convert_absent. intros v [].
Qed.

(** [operator==] and [operator!=] of [iterator_matrix]. *)
Definition iterator_eq' (a b : iterator_matrix) : bool :=
  Nat.eqb (map_iterator a) (map_iterator b).

Definition iterator_ne' (a b : iterator_matrix) : bool :=
  negb (iterator_eq' a b).

(** The tuple of values a client copies out of an element: the indices
    and the value its reference leads to (the conversion to
    [std::tuple<size_t, size_t, int>] in the first range-based [for] of
    main.cpp). *)
Definition copy_out (e : element) : action value_t :=
  v <- read_through e ;;
  ret (tuple_cat_tie (coords e) v).

(** The loop [for (it = first; it != last; ++it)] over the mutable
    iterator, copying out each element. *)
Fixpoint traverse' (rounds : nat) (it last : iterator_matrix)
  : action (list value_t) :=
  match rounds with
  | 0 => ret []
  | S rounds' =>
      if iterator_ne' it last then
        e <- dereference' it ;;
        match e with
        | Some x =>
            t <- copy_out x ;;
            rest <- traverse' rounds' (increment' it) last ;;
            ret (t :: rest)
        | None => ret []
        end
      else ret []
  end.

(** The range-based [for] over a matrix that is not [const]. *)
Definition enumerate' : action (list value_t) :=
  n <- size ;;
  first <- begin' ;;
  last <- end' ;;
  traverse' (S n) first last.

Lemma traverse'_skipn rounds pos d :
  length (StdMap.nodes d) - pos < rounds ->
  pos <= length (StdMap.nodes d) ->
  traverse' rounds (Iterator pos) (Iterator (length (StdMap.nodes d))) d
  = (map flatten (skipn pos (StdMap.nodes d)), d).
Proof.
  revert pos. induction rounds as [|rounds IH]; intros pos Hr Hp; [lia|].
  simpl. unfold iterator_ne', iterator_eq'. simpl.
  destruct (Nat.eqb_spec pos (length (StdMap.nodes d))) as [E|E]; simpl.
  - rewrite E, skipn_all. reflexivity.
  - unfold bind, dereference', copy_out, read_through, gets, ret, second,
      StdMap.deref. cbn [map_iterator second_ref coords bind].
    destruct (nth_error (StdMap.nodes d) pos) as [[first second']|] eqn:En.
    + rewrite (skipn_nth_error _ _ _ En). unfold bind. cbn [second_ref].
      rewrite En. unfold increment'. cbn [map_iterator].
      rewrite IH by lia. reflexivity.
    + apply nth_error_None in En. lia.
Qed.

(** X9: the traversal with [begin()] and [end()], copying each element
    out, yields what the traversal with [cbegin()] and [cend()] yields, and
    leaves the container as it was. *)
Theorem mutable_traversal_agrees (d : contener_t) :
  enumerate' d = enumerate d.
Proof.
  rewrite enumerate_nodes.
  unfold enumerate', bind, size, begin', end', gets, StdMap.size, StdMap.cbegin,
    StdMap.cend.
  rewrite traverse'_skipn by lia. reflexivity.
Qed.

Lemma keys_store_in it v (l : list node) :
  map fst (StdMap.store_in it v l) = map fst l.
Proof.
  revert it. induction l as [|[k1 v1] l IH]; intros [|it]; simpl; try reflexivity.
  f_equal. apply IH.
Qed.

Lemma In_store_in_other it v (l : list node) k v0 k' v' :
  nth_error l it = Some (k, v0) -> k' <> k ->
  In (k', v') (StdMap.store_in it v l) <-> In (k', v') l.
Proof.
  intros H Hne. revert it H. induction l as [|[k1 v1] l IH]; intros [|it] H;
    simpl in *; try discriminate.
  - injection H as -> ->. split; (intros [E|Hin]; [congruence | right; exact Hin]).
  - rewrite (IH _ H). reflexivity.
Qed.

(** X10: an assignment through the element of a mutable iterator never
    adds or removes a node: the coordinates of the matrix, their order in an
    enumeration and [size()] stay as they were, whatever is written. *)
Theorem write_through_keeps_coordinates (e : element) (v : value_type_t)
  (d : contener_t) :
  map fst (StdMap.nodes (after (write_through e v) d)) = map fst (StdMap.nodes d) /\
  result size (after (write_through e v) d) = result size d /\
  map coords_of (result enumerate (after (write_through e v) d))
  = map coords_of (result enumerate d).
Proof.
  assert (Hk : map fst (StdMap.nodes (after (write_through e v) d))
               = map fst (StdMap.nodes d)) by apply keys_store_in.
  split; [exact Hk | split].
  - unfold result, after, size, write_through, modify, gets, StdMap.size. simpl.
    apply StdMap.length_store_in.
  - unfold result. rewrite !enumerate_nodes. simpl. rewrite !map_map.
    rewrite !(map_ext _ fst coords_of_flatten). exact Hk.
Qed.

(** X11: the default value written through the element of a mutable
    iterator and the default value assigned through the index chain leave
    matrices in which every cell reads the same, and which [operator==] of
    the containers nevertheless tells apart. *)
Theorem stale_node_breaks_equality (it : iterator_matrix) (c : coordinate)
  (v0 : value_type_t) (d : contener_t) (e : element) :
  StdMap.deref (map_iterator it) d = Some (key c, v0) ->
  result (dereference' it) d = Some e ->
  let d1 := after (write_through e default_value) d in
  let d2 := after (assign (cell c) default_value) d in
  (forall c', result (convert (cell c')) d1 = result (convert (cell c')) d2) /\
  StdMap.equal value_eq_dec d1 d2 = false.
Proof.
  intros H He d1 d2. unfold StdMap.deref in H.
  assert (Ee : e = Element (key c) (map_iterator it)).
  { unfold result, dereference', gets, StdMap.deref in He. simpl in He.
    rewrite H in He. injection He as <-. reflexivity. }
  subst e.
  assert (Hn1 : StdMap.nodes d1
                = StdMap.store_in (map_iterator it) default_value (StdMap.nodes d))
    by reflexivity.
  split.
  - intros c'. destruct (Tuple.eq_dec (key c') (key c)) as [Hk|Hk].
    + apply key_inj in Hk. subst c'.
      rewrite (convert_stored (cell c) default_value d1).
      * symmetry. apply convert_absent. apply explicit_absent.
        apply not_explicit_after_default.
      * rewrite index_view_cell, Hn1. exact (In_store_in _ _ _ _ _ H).
    + apply convert_determined. intros v'. unfold d2.
      rewrite stored_after_assign. unfold stored. rewrite Hn1.
      rewrite (In_store_in_other _ _ _ _ _ _ _ H Hk). split.
      * intros Hin. right. split; [congruence | exact Hin].
      * intros [[-> _]|[_ Hin]]; [contradiction | exact Hin].
  - destruct (StdMap.equal value_eq_dec d1 d2) eqn:E; [|reflexivity].
    unfold StdMap.equal in E. apply StdMap.equal_in_eq in E.
    pose proof (f_equal (@length _) E) as El.
    rewrite Hn1, StdMap.length_store_in in El.
    unfold d2 in El. rewrite nodes_after_assign, index_view_cell in El.
    rewrite (proj2 (value_ne_false _ _) eq_refl) in El.
    pose proof (StdMap.length_erase_in _ _ _
                  (StdMap.find_in_present _ _ _ _ (StdMap.nodes_ordered d)
                     (nth_error_In _ _ H))) as Hl.
    rewrite <- El in Hl. lia.
Qed.

(** *** Comparison, moves and the keys of reachable matrices *)

Lemma operator_eq_true this other h :
  operator_eq this other h = true <->
  data_ (object this h) = data_ (object other h).
Proof.
  unfold operator_eq, StdMap.equal. rewrite StdMap.equal_in_eq. split.
  - apply StdMap.nodes_inj.
  - intros ->. reflexivity.
Qed.

Lemma same_reads_same_nodes d1 d2 :
  well_formed d1 ->
  (forall c, result (convert (cell c)) d1 = result (convert (cell c)) d2) ->
  forall k v, In (k, v) (StdMap.nodes d1) -> In (k, v) (StdMap.nodes d2).
Proof.
  intros Hwf Hr k v Hin. destruct (Hwf k v Hin) as [Hv [c ->]].
  assert (E : result (convert (cell c)) d1 = v).
  { apply convert_stored. rewrite index_view_cell. exact Hin. }
  rewrite Hr in E.
  destruct (convert_cases c d2) as [[v' [Hs E']]|[_ E']]; rewrite E in E'.
  - subst v'. exact Hs.
  - contradiction.
Qed.

(** X12: [operator==] answers true exactly when the two matrices hold the
    same nodes; for two matrices whose nodes all belong to coordinates and
    hold values other than the default, that is exactly when every cell
    reads the same in both. *)
Theorem operator_eq_same_cells (h : heap) (this other : address) :
  (operator_eq this other h = true <->
   forall k v, In (k, v) (StdMap.nodes (data_ (object this h))) <->
               In (k, v) (StdMap.nodes (data_ (object other h)))) /\
  (well_formed (data_ (object this h)) -> well_formed (data_ (object other h)) ->
   (operator_eq this other h = true <->
    forall c, result (convert (cell c)) (data_ (object this h))
              = result (convert (cell c)) (data_ (object other h)))).
Proof.
  assert (Hnodes : operator_eq this other h = true <->
                   forall k v, In (k, v) (StdMap.nodes (data_ (object this h))) <->
                               In (k, v) (StdMap.nodes (data_ (object other h)))).
  { rewrite operator_eq_true. split.
    - intros ->. tauto.
    - intros H. apply StdMap.nodes_inj.
      apply StdMap.ordered_ext; try apply StdMap.nodes_ordered.
      intros [k v]. apply H. }
  split; [exact Hnodes|]. intros Hwf1 Hwf2. split.
  - intros H c. apply operator_eq_true in H. rewrite H. reflexivity.
  - intros Hr. apply Hnodes. intros k v. split.
    + apply same_reads_same_nodes; assumption.
    + apply same_reads_same_nodes; [assumption|]. intros c. symmetry. apply Hr.
Qed.

(** X13: a matrix made by the copy constructor compares equal to its
    original, and after a copy assignment the target compares equal to the
    source. *)
Theorem copies_compare_equal (h : heap) (this other : address) :
  (other < length h ->
   operator_eq (fst (copy_construct other h)) other (snd (copy_construct other h))
   = true) /\
  (this < length h -> operator_eq this other (copy_assign this other h) = true).
Proof.
  split; intros Hlt.
  - apply operator_eq_true. simpl.
    rewrite object_new, object_old by exact Hlt. reflexivity.
  - destruct (Nat.eq_dec this other) as [->|Hne].
    + apply operator_eq_true. reflexivity.
    + unfold copy_assign, copy_assign_with.
      destruct (operator_ne this other h) eqn:E.
      * apply operator_eq_true.
        rewrite object_update_same by exact Hlt.
        rewrite object_update_other by congruence. reflexivity.
      * unfold operator_ne in E. apply negb_false_iff in E. exact E.
Qed.

(** X14: moving a matrix into a new object and moving it back: the new
    object first holds the cells and the source none, then the source holds
    its cells again and the new object none; no other object changes. *)
Theorem move_round_trip (h : heap) (m : address) :
  m < length h ->
  let tmp := fst (move_construct m h) in
  let h1 := snd (move_construct m h) in
  let h2 := move_assign m tmp h1 in
  data_ (object tmp h1) = data_ (object m h) /\
  data_ (object m h1) = StdMap.empty /\
  data_ (object m h2) = data_ (object m h) /\
  data_ (object tmp h2) = StdMap.empty /\
  (forall a, a < length h -> a <> m -> object a h2 = object a h).
Proof.
  intros Hlt. simpl.
  set (E := Matrix StdMap.empty).
  set (D := Matrix (data_ (object m h))).
  assert (Hlen : length (update m E h) = length h) by apply length_update.
  assert (Htmp : object (length h) (update m E h ++ [D]) = D).
  { rewrite <- Hlen. apply object_new. }
  assert (Hm : object m (update m E h ++ [D]) = E).
  { rewrite object_old by lia. apply object_update_same. exact Hlt. }
  unfold move_assign. rewrite Htmp.
  split; [reflexivity | split; [rewrite Hm; reflexivity | split; [|split]]].
  - rewrite object_update_other by lia.
    rewrite object_update_same; [reflexivity|]. rewrite length_app, Hlen. lia.
  - rewrite object_update_same; [reflexivity|].
    rewrite length_update, length_app, Hlen. simpl. lia.
  - intros a Ha Hne. rewrite !object_update_other by lia.
    rewrite object_old by lia. apply object_update_other. exact Hne.
Qed.

(** A property of containers that the empty container has and that
    assignments through the index chain keep holds of every matrix of every
    program. *)
Section Invariant.

Variable P : contener_t -> Prop.
Hypothesis P_empty : P StdMap.empty.
Hypothesis P_assign : forall c v d, P d -> P (after (assign (cell c) v) d).

Lemma invariant_object a h :
  Forall (fun m => P (data_ m)) h -> P (data_ (object a h)).
Proof.
  intros H. unfold object. destruct (Nat.lt_ge_cases a (length h)) as [Hlt|Hge].
  - apply (proj1 (Forall_forall _ _) H). apply nth_In. exact Hlt.
  - rewrite nth_overflow by exact Hge. exact P_empty.
Qed.

Lemma invariant_update a m h :
  Forall (fun m' => P (data_ m')) h -> P (data_ m) ->
  Forall (fun m' => P (data_ m')) (update a m h).
Proof.
  intros H Hm. revert a.
  induction H as [|m0 h H0 H IH]; intros [|a]; simpl.
  - constructor.
  - constructor.
  - constructor; assumption.
  - constructor; [assumption | apply IH].
Qed.

Lemma invariant_push m h :
  Forall (fun m' => P (data_ m')) h -> P (data_ m) ->
  Forall (fun m' => P (data_ m')) (h ++ [m]).
Proof.
  intros H Hm. apply Forall_app. split; [exact H | constructor; [exact Hm | constructor]].
Qed.

Lemma invariant_execute st h :
  Forall (fun m => P (data_ m)) h -> Forall (fun m => P (data_ m)) (execute st h).
Proof.
  intros H. destruct st as [|other|other|this other|this other|this c v|this];
    cbn [execute construct copy_construct move_construct snd].
  - apply invariant_push; [exact H | exact P_empty].
  - apply invariant_push; [exact H | apply invariant_object; exact H].
  - apply invariant_push; [|apply invariant_object; exact H].
    apply invariant_update; [exact H | exact P_empty].
  - unfold copy_assign, copy_assign_with. destruct (operator_ne this other h); [|exact H].
    apply invariant_update; [exact H | apply invariant_object; exact H].
  - unfold move_assign. apply invariant_update; [|exact P_empty].
    apply invariant_update; [exact H | apply invariant_object; exact H].
  - rewrite snd_call. apply invariant_update; [exact H|].
    apply P_assign. apply invariant_object. exact H.
  - rewrite snd_call. apply invariant_update; [exact H | exact P_empty].
Qed.

Lemma invariant_run prog h :
  Forall (fun m => P (data_ m)) h -> Forall (fun m => P (data_ m)) (run prog h).
Proof.
  revert h. induction prog as [|st prog IH]; intros h H; [exact H|].
  simpl. apply IH. apply invariant_execute. exact H.
Qed.

End Invariant.

(** X15: in a program that starts without matrices, every node of every
    matrix has as its key the indices of a full chain: a tuple of exactly
    [matrix_size] indices. *)
Theorem reachable_keys_are_coordinates (prog : list statement) (a : address)
  (k : index_t) (v : value_type_t) :
  In (k, v) (StdMap.nodes (data_ (object a (run prog [])))) ->
  exists c : coordinate,
    k = key c /\ (0 < matrix_size -> length k = matrix_size).
Proof.
  intros Hin.
  pose (P := fun d : contener_t =>
               forall k' v', In (k', v') (StdMap.nodes d) -> exists c, k' = key c).
  assert (HP : P (data_ (object a (run prog [])))).
  { apply (invariant_object P); [intros k' v' [] |].
    apply (invariant_run P); [intros k' v' [] | | constructor].
    intros c w d Hd k' v' Hin'.
    apply In_after_assign in Hin' as [[-> _]|[_ Hin']].
    - exists c. apply index_view_cell.
    - exact (Hd k' v' Hin'). }
  destruct (HP k v Hin) as [c ->]. exists c. split; [reflexivity|].
  intros Hpos. unfold key. simpl. rewrite length_components. lia.
Qed.

Lemma iter_increment n pos :
  Nat.iter n increment (ConstIterator pos) = ConstIterator (n + pos).
Proof.
  induction n as [|n IH]; simpl; [reflexivity|]. rewrite IH. reflexivity.
Qed.

(** X16: stepping a constant iterator [n] times from [cbegin()] and
    dereferencing it yields the [n]-th tuple of the enumeration; the iterator
    equals [cend()] exactly after [size()] steps; dereferencing leaves the
    container as it was. *)
Theorem iterator_steps (d : contener_t) (n : nat) :
  let it := Nat.iter n increment (result cbegin d) in
  result (dereference it) d = nth_error (result enumerate d) n /\
  (iterator_eq it (result cend d) = true <-> n = result size d) /\
  after (dereference it) d = d.
Proof.
  unfold result, after. rewrite enumerate_nodes.
  unfold cbegin, cend, size, gets, StdMap.cbegin, StdMap.cend, StdMap.size. simpl.
  rewrite iter_increment, Nat.add_0_r. split; [|split; [|reflexivity]].
  - unfold dereference, gets, StdMap.deref. simpl. rewrite nth_error_map.
    destruct (nth_error (StdMap.nodes d) n) as [[first second']|]; reflexivity.
  - unfold iterator_eq. simpl. apply Nat.eqb_eq.
Qed.

Lemma well_formed_after_assign c v d :
  well_formed d -> well_formed (after (assign (cell c) v) d).
Proof.
  intros H k w Hin. apply In_after_assign in Hin as [[Hk [-> Hv]]|[_ Hin]].
  - split; [exact Hv|]. exists c. rewrite Hk. apply index_view_cell.
  - exact (H k w Hin).
Qed.

(** C6: a full enumeration yields the nodes of the container, one tuple
    per node made of the indices in order followed by the value, with the
    coordinates strictly ascending in the lexicographic order; the sequence
    is the same for any two containers holding the same cells, and so does
    not depend on the order in which the cells were written.  The nodes are
    exactly the cells that read as a value other than the default whenever
    no node holds the default value, which is so for every matrix of a
    program that constructs, copies, moves, clears and assigns through the
    index chain only; a default value written through the element of a
    mutable iterator stays a node and is enumerated. *)
Theorem enumerate_ordered_cells (d : contener_t) :
  result enumerate d
  = map (fun n => map Coord (fst n) ++ [Value (snd n)]) (StdMap.nodes d) /\
  StronglySorted (fun a b => Tuple.lt a b = true)
    (map coords_of (result enumerate d)) /\
  (forall d', (forall k v, In (k, v) (StdMap.nodes d') <-> In (k, v) (StdMap.nodes d)) ->
     result enumerate d' = result enumerate d) /\
  (forall ws ws', NoDup (map fst ws) -> Permutation ws ws' ->
     result enumerate (write_all ws d) = result enumerate (write_all ws' d)) /\
  (well_formed d ->
   forall e, In e (result enumerate d) <->
     exists c v, e = map Coord (key c) ++ [Value v] /\ v <> default_value /\
                 result (convert (cell c)) d = v) /\
  (forall prog a, well_formed (data_ (object a (run prog [])))) /\
  (forall ws, well_formed (write_all ws StdMap.empty)).
Proof.
  unfold result. split; [|split; [|split; [|split; [|split; [|split]]]]].
  - rewrite enumerate_nodes. reflexivity.
  - rewrite enumerate_nodes. simpl. rewrite map_map.
    rewrite (map_ext _ fst coords_of_flatten).
    apply StdMap.ordered_keys_sorted. apply StdMap.nodes_ordered.
  - intros d' Hsame. f_equal. f_equal. apply StdMap.nodes_inj.
    apply StdMap.ordered_ext; try apply StdMap.nodes_ordered.
    intros [k v]. apply Hsame.
  - intros ws ws' Hnd Hp. rewrite (write_all_permutation _ _ d Hnd Hp). reflexivity.
  - intros Hwf e. rewrite enumerate_nodes. simpl. split.
    + intros Hin. apply in_map_iff in Hin as [[k v] [<- Hin]].
      destruct (Hwf k v Hin) as [Hv [c ->]]. exists c, v.
      split; [reflexivity | split; [exact Hv|]].
      apply convert_stored. rewrite index_view_cell. exact Hin.
    + intros [c [v [-> [Hv Hr]]]]. apply in_map_iff. exists (key c, v).
      split; [reflexivity|].
      destruct (convert_cases c d) as [[v' [Hs Hr']]|[_ Hr']];
        unfold result in Hr'; rewrite Hr in Hr'.
      * subst v'. exact Hs.
      * contradiction.
  - intros prog a. apply (invariant_object well_formed well_formed_empty).
    apply (invariant_run well_formed well_formed_empty).
    + intros c v d0. apply well_formed_after_assign.
    + constructor.
  - intros ws. apply well_formed_write_all. apply well_formed_empty.
Qed.

End Template.

Arguments index_view_ {num} _.
Arguments next_subscript {num} p index.
Arguments cell {matrix_size} c.
Arguments key {matrix_size} c.
Arguments result {value_type_t A} m data_.
Arguments after {value_type_t A} m data_.
Arguments assign {value_type_t} value_eq_dec default_value p value _.
Arguments convert {value_type_t} default_value p _.
Arguments size {value_type_t} _.
Arguments clear {value_type_t} _.
Arguments enumerate {value_type_t} _.
Arguments Coord {value_type_t} i.
Arguments Value {value_type_t} v.
Arguments coords_of {value_type_t} e.
Arguments occurrences {value_type_t matrix_size} c es.
Arguments stored {value_type_t matrix_size} c v data_.
Arguments explicit {value_type_t matrix_size} c data_.
Arguments write_all {value_type_t} value_eq_dec default_value {matrix_size} ws data0.
Arguments dereference' {value_type_t} it _.
Arguments write_through {value_type_t} e value _.
Arguments read_through {value_type_t} default_value e _.
Arguments Matrix {value_type_t} data_.
Arguments data_ {value_type_t} _.
Arguments object {value_type_t} a h.
Arguments update {value_type_t} a m h.
Arguments construct {value_type_t} h.
Arguments copy_construct {value_type_t} other h.
Arguments move_construct {value_type_t} other h.
Arguments operator_eq {value_type_t} value_eq_dec this other h.
Arguments operator_ne {value_type_t} value_eq_dec this other h.
Arguments copy_assign_with {value_type_t} differs this other h.
Arguments copy_assign {value_type_t} value_eq_dec this other h.
Arguments move_assign {value_type_t} this other h.
Arguments Construct {value_type_t matrix_size}.
Arguments CopyConstruct {value_type_t matrix_size} other.
Arguments MoveConstruct {value_type_t matrix_size} other.
Arguments CopyAssign {value_type_t matrix_size} this other.
Arguments MoveAssign {value_type_t matrix_size} this other.
Arguments Assign {value_type_t matrix_size} this c value.
Arguments Clear {value_type_t matrix_size} this.
Arguments Write {value_type_t matrix_size} c value.
Arguments Wipe {value_type_t matrix_size}.
Arguments mutate {value_type_t matrix_size} this mu.
Arguments execute {value_type_t} value_eq_dec default_value {matrix_size} st h.
Arguments run {value_type_t} value_eq_dec default_value {matrix_size} prog h.
Arguments cbegin {value_type_t} _.
Arguments begin' {value_type_t} _.
Arguments cend {value_type_t} _.
Arguments traverse {value_type_t} rounds it last _.
Arguments dereference {value_type_t} it _.
Arguments enumerate' {value_type_t} default_value _.
Arguments tuple_cat_tie {value_type_t} first second'.
Arguments well_formed {value_type_t} default_value {matrix_size} d.

End SparseMatrix.

(** ** The instance [sparse_matrix<int>] and main.cpp *)
Module Demo.
Import SparseMatrix.

(** [int]: 32-bit two's complement, kept as an integer of [Z]. *)
Definition int : Type := Z.
Bind Scope Z_scope with int.

(** [sparse_matrix<int>]: [default_value = 0], [matrix_size = 2]. *)
Definition default_value : int := 0%Z.
Definition matrix_size : nat := 2.

(** [static_cast<int>(x)] for [x] of type [size_t]. *)
Definition static_cast_int (x : size_t) : int :=
  let r := (Z.of_N x mod 2 ^ 32)%Z in
  if (r <? 2 ^ 31)%Z then r else (r - 2 ^ 32)%Z.

(** [a - b] and [++i] on [size_t]: modulo [2 ^ 64]. *)
Definition size_t_sub (a b : size_t) : size_t :=
  ((a + 2 ^ 64 - b mod 2 ^ 64) mod 2 ^ 64)%N.

Definition size_t_succ (i : size_t) : size_t := ((i + 1) mod 2 ^ 64)%N.

(** [matrix[i][j]]: the subscript of the matrix, then that of the proxy. *)
Definition at_ (i j : size_t) : index_matrix 0 :=
  next_subscript (subscript matrix_size i) j.

(** The coordinate of [matrix[i][j]]. *)
Definition coord (i j : size_t) : coordinate matrix_size := (i, (j, tt)).

(** [matrix[i][j] = value] and the read [matrix[i][j]]. *)
Definition write (i j : size_t) (value : int) : action int unit :=
  assign Z.eq_dec default_value (at_ i j) value.

Definition read (i j : size_t) : action int int :=
  convert default_value (at_ i j).

(** [for (size_t i = first; i < bound; ++i) body(i)]; [None] when the
    rounds allowed run out before the condition fails. *)
Fixpoint for_loop (rounds : nat) (i bound : size_t) (body : size_t -> action int unit)
  (data_ : contener_t int) : option (contener_t int) :=
  match rounds with
  | 0 => None
  | S rounds' =>
      if N.ltb i bound then
        for_loop rounds' (size_t_succ i) bound body (after (body i) data_)
      else Some data_
  end.

(** [const int num_elem = 10], and as the bound of a loop over [size_t]. *)
Definition num_elem : int := 10%Z.
Definition num_elem_size_t : size_t := Z.to_N num_elem.

(** main.cpp, lines 26-28: the main diagonal. *)
Definition main_diagonal (i : size_t) : action int unit :=
  write i i (static_cast_int i).

(** main.cpp, lines 31-33: the secondary diagonal. *)
Definition secondary_diagonal (i : size_t) : action int unit :=
  write i (size_t_sub (Z.to_N (num_elem - 1)) i)
    (static_cast_int (size_t_sub (Z.to_N (num_elem - 1)) i)).

(** The matrix after both loops. *)
Definition diagonals (rounds : nat) : option (contener_t int) :=
  match for_loop rounds 0%N num_elem_size_t main_diagonal StdMap.empty with
  | Some data_ => for_loop rounds 0%N num_elem_size_t secondary_diagonal data_
  | None => None
  end.

Example diagonals_nodes :
  option_map (fun d => map fst (StdMap.nodes d)) (diagonals 11)
  = Some [[0;9]; [1;1]; [1;8]; [2;2]; [2;7]; [3;3]; [3;6]; [4;4]; [4;5];
          [5;4]; [5;5]; [6;3]; [6;6]; [7;2]; [7;7]; [8;1]; [8;8]; [9;9]]%N.
Proof. vm_compute. reflexivity. Qed.

(** Rounds beyond those a loop needs change nothing. *)
Lemma for_loop_more rounds i bound body data_ r :
  for_loop rounds i bound body data_ = Some r ->
  for_loop (S rounds) i bound body data_ = Some r.
Proof.
  revert i data_. induction rounds as [|rounds IH]; intros i data_; [discriminate|].
  intros H. cbn [for_loop] in *.
  destruct (N.ltb i bound); [apply IH; exact H | exact H].
Qed.

Lemma diagonals_more rounds r :
  diagonals rounds = Some r -> diagonals (S rounds) = Some r.
Proof.
  unfold diagonals. intros H.
  destruct (for_loop rounds 0%N num_elem_size_t main_diagonal StdMap.empty)
    as [data_|] eqn:E; [|discriminate].
  rewrite (for_loop_more _ _ _ _ _ _ E). apply for_loop_more. exact H.
Qed.

Lemma diagonals_enough rounds r :
  diagonals 11 = Some r -> 11 <= rounds -> diagonals rounds = Some r.
Proof.
  intros H Hle. induction Hle as [|rounds Hle IH]; [exact H|].
  apply diagonals_more. exact IH.
Qed.

(** The container of a matrix holding only [matrix[1][2] = 7]. *)
Definition one_cell : contener_t int := after (write 1 2 7) StdMap.empty.

Example one_cell_nodes : StdMap.nodes one_cell = [([1; 2]%N, 7%Z)].
Proof. reflexivity. Qed.

(** Scenario B: [m[0][0] = 0] on an empty matrix stores nothing. *)
Example default_write_on_empty :
  result size (after (write 0 0 0) StdMap.empty) = 0.
Proof. reflexivity. Qed.

(** C5, as the spec states it, fails: the two loops leave 18 nodes, not 20. *)
Lemma diagonals_size_not_20 :
  option_map (result size) (diagonals 11) = Some 18 /\
  option_map (result size) (diagonals 11) <> Some 20.
Proof. split; [vm_compute; reflexivity | vm_compute; discriminate]. Qed.

(** C5: after [m[i][i] = i] and [m[i][9 - i] = 9 - i] for [i] from 0 to 9
    on a two-dimensional matrix of integers with default 0, both loops
    have ended, [size()] is 18, [m[1][1]] reads 1 and [m[0][9]] reads 9.
    The two assignments of 0, to [m[0][0]] and to [m[9][0]], store nothing. *)
Theorem diagonals_size_18 :
  exists data_ : contener_t int,
    (forall rounds, 11 <= rounds -> diagonals rounds = Some data_) /\
    result size data_ = 18 /\
    result (read 1 1) data_ = 1%Z /\
    result (read 0 9) data_ = 9%Z /\
    ~ explicit (coord 0 0) data_ /\
    ~ explicit (coord 9 0) data_.
Proof.
  destruct (diagonals 11) as [data_|] eqn:E; [|vm_compute in E; discriminate].
  exists data_. split; [intros rounds; apply diagonals_enough; exact E|].
  assert (Hn : StdMap.nodes data_
               = [([0;9], 9%Z); ([1;1], 1%Z); ([1;8], 8%Z); ([2;2], 2%Z);
                  ([2;7], 7%Z); ([3;3], 3%Z); ([3;6], 6%Z); ([4;4], 4%Z);
                  ([4;5], 5%Z); ([5;4], 4%Z); ([5;5], 5%Z); ([6;3], 3%Z);
                  ([6;6], 6%Z); ([7;2], 2%Z); ([7;7], 7%Z); ([8;1], 1%Z);
                  ([8;8], 8%Z); ([9;9], 9%Z)]%N).
  { assert (H : option_map (@StdMap.nodes int) (diagonals 11)
                = option_map (@StdMap.nodes int) (Some data_)) by (rewrite E; reflexivity).
    vm_compute in H. injection H as H. symmetry. exact H. }
  split; [|split; [|split; [|split]]].
  - unfold result, size, gets, StdMap.size. simpl. rewrite Hn. reflexivity.
  - apply convert_stored. rewrite Hn. simpl. tauto.
  - apply convert_stored. rewrite Hn. simpl. tauto.
  - intros [v Hin]. unfold stored in Hin. rewrite Hn in Hin.
    simpl in Hin. intuition discriminate.
  - intros [v Hin]. unfold stored in Hin. rewrite Hn in Hin.
    simpl in Hin. intuition discriminate.
Qed.

Lemma diagonals_size_18_witness :
  11 <= 12 /\
  exists data_ : contener_t int, diagonals 12 = Some data_ /\ result size data_ = 18.
Proof.
  split; [repeat constructor|].
  destruct diagonals_size_18 as [data_ [Hrun [Hsize _]]].
  exists data_. split; [apply Hrun; repeat constructor | exact Hsize].
Defined.

(** *** The theorems at a concrete matrix *)

Lemma assign_value_stores_witness :
  (7 <> default_value)%Z /\
  result (read 1 2) (after (write 1 2 7) StdMap.empty) = 7%Z.
Proof.
  split; [discriminate|].
  exact (proj1 (assign_value_stores int Z.eq_dec default_value
                  matrix_size (coord 1 2) 7%Z StdMap.empty
                  ltac:(discriminate))).
Defined.

Lemma assign_default_erases_witness :
  explicit (coord 1 2) one_cell /\
  S (result size (after (write 1 2 0) one_cell)) = result size one_cell.
Proof.
  assert (H : explicit (coord 1 2) one_cell).
  { exists 7%Z. left. reflexivity. }
  split; [exact H|].
  exact (proj2 (proj2 (proj2 (assign_default_erases int Z.eq_dec default_value
                                matrix_size (coord 1 2) one_cell))) H).
Defined.

Lemma convert_reads_witness :
  stored (coord 1 2) 7%Z one_cell /\
  result (read 1 2) one_cell = 7%Z.
Proof.
  assert (H : stored (coord 1 2) 7%Z one_cell).
  { left. reflexivity. }
  split; [exact H|].
  exact (proj1 (proj2 (convert_reads int Z.eq_dec default_value
                         matrix_size (coord 1 2) one_cell)) 7%Z H).
Defined.

Lemma assign_then_default_restores_witness :
  ~ explicit (coord 1 2) (@StdMap.empty int) /\
  after (write 1 2 0) (after (write 1 2 7) StdMap.empty) = StdMap.empty.
Proof.
  assert (H : ~ explicit (coord 1 2) (@StdMap.empty int)).
  { intros [v []]. }
  split; [exact H|].
  exact (assign_then_default_restores int Z.eq_dec default_value
           matrix_size (coord 1 2) 7%Z StdMap.empty H).
Defined.

(** A program with two matrices: the second is a copy of the first, and
    its cell is erased again. *)
Definition two_matrices : list (statement int matrix_size) :=
  [Construct; Assign 0 (coord 1 2) 7%Z; CopyConstruct 0;
   Assign 1 (coord 1 2) 0%Z].

Example two_matrices_nodes :
  map (fun m => StdMap.nodes (data_ m)) (run Z.eq_dec default_value two_matrices [])
  = [[([1; 2]%N, 7%Z)]; []].
Proof. reflexivity. Qed.

Lemma reachable_nodes_not_default_witness :
  In ([1; 2]%N, 7%Z)
     (StdMap.nodes (data_ (object 0 (run Z.eq_dec default_value two_matrices [])))) /\
  (7 = default_value -> False)%Z.
Proof.
  assert (H : In ([1; 2]%N, 7%Z)
                (StdMap.nodes
                   (data_ (object 0 (run Z.eq_dec default_value two_matrices []))))).
  { left. reflexivity. }
  split; [exact H|].
  exact (reachable_nodes_not_default int Z.eq_dec default_value matrix_size
           two_matrices 0 [1; 2]%N 7%Z H).
Defined.

(** Two writes to different cells, in both orders. *)
Definition two_writes : list (coordinate matrix_size * int) :=
  [((coord 1 2), 7%Z); ((coord 0 5), 3%Z)].

Definition two_writes_swapped : list (coordinate matrix_size * int) :=
  [((coord 0 5), 3%Z); ((coord 1 2), 7%Z)].

Example two_writes_enumerated :
  result enumerate (write_all Z.eq_dec default_value two_writes StdMap.empty)
  = [[Coord 0; Coord 5; Value 3%Z]; [Coord 1; Coord 2; Value 7%Z]].
Proof. reflexivity. Qed.

(** Writing 0 through the element of the mutable iterator keeps the node. *)
Example write_through_nodes :
  StdMap.nodes (after (write_through (Element [1; 2]%N 0) 0%Z) one_cell)
  = [([1; 2]%N, 0%Z)].
Proof. reflexivity. Qed.

Lemma write_through_keeps_node_witness :
  StdMap.deref 0 one_cell = Some ([1; 2]%N, 7%Z) /\
  exists e, stored (coord 1 2) default_value
              (after (write_through e default_value) one_cell).
Proof.
  assert (H : StdMap.deref 0 one_cell
              = Some (key (coord 1 2), 7%Z))
    by reflexivity.
  split; [exact H|].
  destruct (write_through_keeps_node int Z.eq_dec default_value matrix_size
              (Iterator 0) (coord 1 2) 7%Z one_cell H)
    as [e [_ [_ [_ [Hs _]]]]].
  exists e. exact Hs.
Defined.

Lemma copy_is_independent_witness :
  0 < length [Matrix one_cell] /\
  data_ (object 0 (run Z.eq_dec default_value
                     (map (mutate 1) [Write (coord 1 2) 0%Z; Wipe])
                     (snd (copy_construct 0 [Matrix one_cell]))))
  = one_cell.
Proof.
  assert (H : 0 < length [Matrix one_cell]) by (apply le_n).
  split; [exact H|].
  exact (proj1 (proj2 (proj2 (proj2
           (copy_is_independent int Z.eq_dec default_value matrix_size
              [Matrix one_cell] 0 [Write (coord 1 2) 0%Z; Wipe] H))))).
Defined.

Lemma copy_assign_copies_witness :
  0 < length [Matrix (@StdMap.empty int); Matrix one_cell] /\
  data_ (object 0 (copy_assign Z.eq_dec 0 1 [Matrix StdMap.empty; Matrix one_cell]))
  = one_cell.
Proof.
  assert (H : 0 < length [Matrix (@StdMap.empty int); Matrix one_cell])
    by (apply le_S, le_n).
  split; [exact H|].
  exact (proj1 (copy_assign_copies int Z.eq_dec default_value matrix_size
                  [Matrix StdMap.empty; Matrix one_cell] 0 1 H)).
Defined.

(** *** Further theorems at a concrete matrix *)

Lemma coord_0_5_not_1_2 : coord 0 5 = coord 1 2 -> False.
Proof. unfold coord. intros E. discriminate E. Defined.

Lemma assign_leaves_other_cells_witness :
  (coord 0 5 = coord 1 2 -> False) /\
  result (read 0 5) (after (write 1 2 9) one_cell) = result (read 0 5) one_cell.
Proof.
  split; [exact coord_0_5_not_1_2|].
  exact (assign_leaves_other_cells int Z.eq_dec default_value matrix_size
           (coord 1 2) (coord 0 5) 9%Z one_cell coord_0_5_not_1_2).
Defined.

Lemma assign_commutes_witness :
  (coord 0 5 = coord 1 2 -> False) /\
  after (write 0 5 3) (after (write 1 2 0) one_cell)
  = after (write 1 2 0) (after (write 0 5 3) one_cell).
Proof.
  split; [exact coord_0_5_not_1_2|].
  exact (assign_commutes int Z.eq_dec default_value matrix_size
           (coord 0 5) (coord 1 2) 3%Z 0%Z one_cell coord_0_5_not_1_2).
Defined.

Lemma one_cell_not_default :
  forall v : int, stored (coord 1 2) v one_cell -> v <> default_value.
Proof.
  intros v [E|[]]. injection E as <-. discriminate.
Defined.

Lemma assign_read_back_witness :
  (forall v : int, stored (coord 1 2) v one_cell -> v <> default_value) /\
  after (write 1 2 (result (read 1 2) one_cell)) one_cell = one_cell.
Proof.
  split; [exact one_cell_not_default|].
  exact (assign_read_back int Z.eq_dec default_value matrix_size
           (coord 1 2) one_cell one_cell_not_default).
Defined.

Lemma chain_holds_indices_witness :
  0 < matrix_size /\ length (index_view_ (at_ 1 2)) = matrix_size.
Proof.
  assert (H : 0 < matrix_size) by (apply le_S, le_n).
  split; [exact H|].
  exact (proj1 (proj2 (proj2 (proj2
           (chain_holds_indices matrix_size 0 (Index 0 [1; 2]%N) tt (coord 1 2)))))
           H).
Defined.

Lemma size_counts_enumeration_witness :
  result size one_cell < 5 /\
  traverse 5 (result cbegin one_cell) (result cend one_cell) one_cell
  = enumerate one_cell.
Proof.
  assert (H : result size one_cell < 5) by (repeat constructor).
  split; [exact H|].
  exact (proj2 (proj2 (size_counts_enumeration int one_cell)) 5 H).
Defined.

Lemma stale_node_breaks_equality_witness :
  StdMap.deref 0 one_cell = Some (key (coord 1 2), 7%Z) /\
  StdMap.equal Z.eq_dec
    (after (write_through (Element [1; 2]%N 0) default_value) one_cell)
    (after (write 1 2 default_value) one_cell) = false.
Proof.
  assert (H : StdMap.deref 0 one_cell = Some (key (coord 1 2), 7%Z)) by reflexivity.
  split; [exact H|].
  exact (proj2 (stale_node_breaks_equality int Z.eq_dec default_value matrix_size
                  (Iterator 0) (coord 1 2) 7%Z one_cell (Element [1; 2]%N 0)
                  H eq_refl)).
Defined.

Lemma one_cell_well_formed : well_formed default_value (matrix_size := matrix_size) one_cell.
Proof.
  intros k v [E|[]]. injection E as <- <-.
  split; [discriminate | exists (coord 1 2); reflexivity].
Defined.

Lemma operator_eq_same_cells_witness :
  well_formed default_value (matrix_size := matrix_size) one_cell /\
  (operator_eq Z.eq_dec 0 1 [Matrix one_cell; Matrix one_cell] = true <->
   forall c : coordinate matrix_size,
     result (convert default_value (cell c)) one_cell
     = result (convert default_value (cell c)) one_cell).
Proof.
  split; [exact one_cell_well_formed|].
  exact (proj2 (operator_eq_same_cells int Z.eq_dec default_value matrix_size
                  [Matrix one_cell; Matrix one_cell] 0 1)
           one_cell_well_formed one_cell_well_formed).
Defined.

Lemma copies_compare_equal_witness :
  0 < length [Matrix one_cell] /\
  operator_eq Z.eq_dec 1 0 (snd (copy_construct 0 [Matrix one_cell])) = true.
Proof.
  assert (H : 0 < length [Matrix one_cell]) by apply le_n.
  split; [exact H|].
  exact (proj1 (copies_compare_equal int Z.eq_dec [Matrix one_cell] 0 0) H).
Defined.

Lemma move_round_trip_witness :
  0 < length [Matrix one_cell] /\
  data_ (object 0 (move_assign 0 1 (snd (move_construct 0 [Matrix one_cell]))))
  = one_cell.
Proof.
  assert (H : 0 < length [Matrix one_cell]) by apply le_n.
  split; [exact H|].
  exact (proj1 (proj2 (proj2 (move_round_trip int [Matrix one_cell] 0 H)))).
Defined.

Lemma reachable_keys_are_coordinates_witness :
  In ([1; 2]%N, 7%Z)
     (StdMap.nodes (data_ (object 0 (run Z.eq_dec default_value two_matrices [])))) /\
  exists c : coordinate matrix_size,
    [1; 2]%N = key c /\ (0 < matrix_size -> length [1; 2]%N = matrix_size).
Proof.
  assert (H : In ([1; 2]%N, 7%Z)
                (StdMap.nodes
                   (data_ (object 0 (run Z.eq_dec default_value two_matrices [])))))
    by (left; reflexivity).
  split; [exact H|].
  exact (reachable_keys_are_coordinates int Z.eq_dec default_value matrix_size
           two_matrices 0 [1; 2]%N 7%Z H).
Defined.

(** [one_cell] after the default value 0 has been assigned to [std::get<2>]
    of the element that dereferencing [matrix.begin()] yields. *)
Definition stale_cell : contener_t int :=
  match result (dereference' (result begin' one_cell)) one_cell with
  | Some e => after (write_through e default_value) one_cell
  | None => one_cell
  end.

(** C6, as the spec states it, fails: the enumeration of [stale_cell]
    yields the tuple of a cell that holds, and reads as, the default value. *)
Lemma enumerate_yields_default_cell :
  result enumerate stale_cell = [[Coord 1; Coord 2; Value default_value]] /\
  result (read 1 2) stale_cell = default_value /\
  ((forall e, In e (result enumerate stale_cell) ->
      exists (c : coordinate matrix_size) (v : int),
        e = map Coord (key c) ++ [Value v] /\ v <> default_value /\
        result (convert default_value (cell c)) stale_cell = v) -> False).
Proof.
  split; [reflexivity | split; [reflexivity|]].
  intros H.
  destruct (H [Coord 1; Coord 2; Value default_value] (or_introl eq_refl))
    as [[i [j []]] [v [E [Hv _]]]].
  simpl in E. injection E as _ _ Ev. apply Hv. symmetry. exact Ev.
Qed.

Lemma enumerate_ordered_cells_witness :
  NoDup (map fst two_writes) /\ Permutation two_writes two_writes_swapped /\
  well_formed default_value (matrix_size := matrix_size) one_cell /\
  result enumerate (write_all Z.eq_dec default_value two_writes StdMap.empty)
  = result enumerate (write_all Z.eq_dec default_value two_writes_swapped StdMap.empty) /\
  (In [Coord 1; Coord 2; Value 7%Z] (result enumerate one_cell) <->
   exists (c : coordinate matrix_size) (v : int),
     [Coord 1; Coord 2; Value 7%Z] = map Coord (key c) ++ [Value v] /\
     v <> default_value /\ result (convert default_value (cell c)) one_cell = v).
Proof.
  assert (Hnd : NoDup (map fst two_writes)).
  { constructor; [|constructor; [|constructor]]; simpl; intuition discriminate. }
  assert (Hp : Permutation two_writes two_writes_swapped) by apply perm_swap.
  split; [exact Hnd | split; [exact Hp | split; [exact one_cell_well_formed | split]]].
  - exact (proj1 (proj2 (proj2 (proj2
             (enumerate_ordered_cells int Z.eq_dec default_value
                matrix_size StdMap.empty))))
             two_writes two_writes_swapped Hnd Hp).
  - exact (proj1 (proj2 (proj2 (proj2 (proj2
             (enumerate_ordered_cells int Z.eq_dec default_value
                matrix_size one_cell)))))
             one_cell_well_formed [Coord 1; Coord 2; Value 7%Z]).
Defined.

End Demo.
